(** * ipdefiner: address-range expansion and reachability probing

    A shallow embedding of [main.go]: the byte-level [increment], the probe
    primitive [pingAddress], and [analyze] with its fan-out of goroutines,
    its wait group and its mutex.  Calls into libraries the program imports
    ([net], [go-ping]) are either modelled after the library's documented
    behaviour on IPv4 input or taken as parameters of the environment. *)

From stdpp Require Import gmap strings list sorting.
From Stdlib Require Import ZArith Lia Ascii.

Local Open Scope string_scope.

Local Open Scope Z_scope.

(** ** Machine integers and bytes *)

(** Go's [int] on a 64-bit target: two's complement wrap-around. *)
Definition int_wrap (z : Z) : Z := (z + 2 ^ 63) mod 2 ^ 64 - 2 ^ 63.

(** Go's [byte]: the conversion [byte(n)] and byte arithmetic keep the low
    eight bits. *)
Definition byte_wrap (z : Z) : Z := z mod 256.

(** A computation that may stop with a run-time panic (index out of range,
    negative shift count). *)
Inductive exec (A : Type) : Type :=
  | Value (a : A)
  | Panic.
Arguments Value {A} a.
Arguments Panic {A}.

#[global] Instance exec_ret : MRet exec := fun _ a => Value a.
#[global] Instance exec_bind : MBind exec := fun _ _ f m =>
  match m with
  | Value a => f a
  | Panic => Panic
  end.

(** [x << n] on [int]: a negative count panics, a count of 64 or more
    shifts every bit out. *)
Definition shl (x n : Z) : exec Z :=
  if n <? 0 then Panic
  else if 64 <=? n then Value 0
  else Value (int_wrap (x * 2 ^ n)).

(** ** Addresses *)

(** [net.IP] is a byte slice; an IPv4 address has four bytes. *)
Definition IP : Type := list Z.

(** [a[i]] with Go's bounds check. *)
Definition index (a : IP) (i : Z) : exec Z :=
  if i <? 0 then Panic
  else match a !! Z.to_nat i with
       | Some b => Value b
       | None => Panic
       end.

(** The [for address[lastOctet] == 254 { lastOctet++ }] loop.  [rest] is
    the part of the address from [lastOctet] on; reading past its end is the
    out-of-range access. *)
Fixpoint carry_scan (rest : list Z) (lastOctet : Z) : exec Z :=
  match rest with
  | [] => Panic
  | b :: rest' =>
      if b =? 254 then carry_scan rest' (lastOctet + 1) else Value lastOctet
  end.

Definition scan (address : IP) (lastOctet : Z) : exec Z :=
  if lastOctet <? 0 then Panic
  else carry_scan (drop (Z.to_nat lastOctet) address) lastOctet.

(** [address[lastOctet] += byte(numberToIcrementBy)] *)
Definition add_at (address : IP) (lastOctet numberToIcrementBy : Z) : exec IP :=
  b ← index address lastOctet;
  Value (<[Z.to_nat lastOctet := byte_wrap (b + byte_wrap numberToIcrementBy)]> address).

(** [increment] mutates the address behind its pointer argument; here the
    updated address is the result. *)
Definition increment (address : IP) (lastOctet numberToIcrementBy : Z) : exec IP :=
  let body :=
    lastOctet' ← scan address lastOctet;
    add_at address lastOctet' numberToIcrementBy in
  if lastOctet =? 3 then
    b ← index address lastOctet;
    if b =? 255 then Value address else body
  else body.

(** Big-endian value of an address, the order [bytes.Compare] gives on
    addresses of one length. *)
Definition ip_value (a : IP) : Z := fold_left (fun acc b => acc * 256 + b) a 0.

(** ** The [net] package on IPv4 input *)

Record IPNet : Type := { net_IP : IP; net_Mask : list Z }.

(** [net.CIDRMask(ones, bits)], byte by byte. *)
Fixpoint CIDRMask_bytes (l : nat) (n : Z) : list Z :=
  match l with
  | O => []
  | S l' =>
      if 8 <=? n then 255 :: CIDRMask_bytes l' (n - 8)
      else Z.land (Z.lxor (Z.shiftr 255 n) 255) 255 :: CIDRMask_bytes l' 0
  end.

Definition CIDRMask (ones bits : Z) : list Z :=
  CIDRMask_bytes (Z.to_nat (bits / 8)) ones.

(** Leading one bits of a byte and what is left after them. *)
Fixpoint leading_ones (fuel : nat) (v : Z) : Z * Z :=
  match fuel with
  | O => (0, v)
  | S fuel' =>
      if Z.land v 128 =? 0 then (0, v)
      else let '(n, r) := leading_ones fuel' (byte_wrap (Z.shiftl v 1)) in (n + 1, r)
  end.

(** [simpleMaskLength]: the number of leading ones, or -1 when the mask is
    not a run of ones followed by zeros. *)
Fixpoint simpleMaskLength (mask : list Z) : Z :=
  match mask with
  | [] => 0
  | v :: rest =>
      if v =? 255 then
        let n := simpleMaskLength rest in if n =? -1 then -1 else 8 + n
      else
        let '(n, r) := leading_ones 8 v in
        if negb (r =? 0) then -1
        else if forallb (Z.eqb 0) rest then n else -1
  end.

(** [IPMask.Size] *)
Definition Size (mask : list Z) : Z * Z :=
  let ones := simpleMaskLength mask in
  if ones =? -1 then (0, 0) else (ones, Z.of_nat (length mask) * 8).

(** [IP.Mask] on an address and a mask of one length. *)
Definition mask_ip (ip : IP) (mask : list Z) : IP := zip_with Z.land ip mask.

(** The network a dotted-quad CIDR string denotes: the address masked down
    to its prefix, with the mask of that prefix length. *)
Definition cidr_network (ip : IP) (ones : Z) : IPNet :=
  {| net_IP := mask_ip ip (CIDRMask ones 32); net_Mask := CIDRMask ones 32 |}.

(** What the library's parser returns on IPv4 input. *)
Definition ipv4_network (n : IPNet) : Prop :=
  ∃ ip ones, length ip = 4%nat ∧ Forall (fun b => 0 <= b < 256) ip ∧
             0 <= ones <= 32 ∧ n = cidr_network ip ones.

(** The broadcast address of a network: every host bit set. *)
Definition broadcast (network : IP) (mask : list Z) : IP :=
  zip_with (fun b m => Z.lor b (Z.lxor m 255)) network mask.

(** *** A parser for the dotted-quad form *)

Definition is_digit (c : Ascii.ascii) : bool :=
  let n := Z.of_nat (Ascii.nat_of_ascii c) in (48 <=? n) && (n <=? 57).

Definition digit_value (c : Ascii.ascii) : Z := Z.of_nat (Ascii.nat_of_ascii c) - 48.

(** Cut a string at the first occurrence of [c]. *)
Fixpoint cut (c : Ascii.ascii) (s : string) : option (string * string) :=
  match s with
  | EmptyString => None
  | String x s' =>
      if Ascii.eqb x c then Some (EmptyString, s')
      else '(l, r) ← cut c s'; Some (String x l, r)
  end.

Fixpoint all_digits (s : string) : bool :=
  match s with
  | EmptyString => true
  | String x s' => is_digit x && all_digits s'
  end.

Fixpoint decimal (acc : Z) (s : string) : Z :=
  match s with
  | EmptyString => acc
  | String x s' => decimal (acc * 10 + digit_value x) s'
  end.

(** One octet: one to three digits, no leading zero, at most 255. *)
Definition parse_octet (s : string) : option Z :=
  match s with
  | EmptyString => None
  | String x s' =>
      if negb (all_digits s) then None
      else if Ascii.eqb x "0"%char && negb (String.eqb s' EmptyString) then None
      else if (3 <? Z.of_nat (String.length s))%Z then None
      else let v := decimal 0 s in if v <=? 255 then Some v else None
  end.

Definition parseIPv4 (s : string) : option IP :=
  '(f0, r0) ← cut "."%char s;
  '(f1, r1) ← cut "."%char r0;
  '(f2, f3) ← cut "."%char r1;
  a ← parse_octet f0; b ← parse_octet f1; c ← parse_octet f2; d ← parse_octet f3;
  Some [a; b; c; d].

(** [dtoi] on the whole prefix-length field: digits only, at least one, and
    the running value below [0xFFFFFF]. *)
Fixpoint dtoi (acc : Z) (s : string) : option Z :=
  match s with
  | EmptyString => Some acc
  | String x s' =>
      if is_digit x then
        let n := acc * 10 + digit_value x in
        if 16777215 <=? n then None else dtoi n s'
      else None
  end.

Definition parse_prefix (s : string) : option Z :=
  match s with
  | EmptyString => None
  | _ => n ← dtoi 0 s; if n <=? 32 then Some n else None
  end.

(** [net.ParseCIDR] restricted to strings of the form [A.B.C.D/N]. *)
Definition ParseCIDR4 (s : string) : option IPNet :=
  '(addr, mask) ← cut "/"%char s;
  ip ← parseIPv4 addr;
  n ← parse_prefix mask;
  Some (cidr_network ip n).

(** [IP.String] on a four-byte address. *)
Definition digit_char (d : Z) : Ascii.ascii := Ascii.ascii_of_nat (Z.to_nat (48 + d)).

Definition ubtoa (v : Z) : string :=
  if v <? 10 then String (digit_char v) EmptyString
  else if v <? 100 then
    String (digit_char (v / 10)) (String (digit_char (v mod 10)) EmptyString)
  else
    String (digit_char (v / 100))
      (String (digit_char (v / 10 mod 10)) (String (digit_char (v mod 10)) EmptyString)).

Definition IP_String (a : IP) : string :=
  match a with
  | [b0; b1; b2; b3] =>
      ubtoa b0 +:+ "." +:+ ubtoa b1 +:+ "." +:+ ubtoa b2 +:+ "." +:+ ubtoa b3
  | _ => "?"
  end.

Local Close Scope string_scope.

(** ** The probe primitive *)

(** The fields of [ping.Pinger] the program sets or reads.  Durations are in
    nanoseconds, as [time.Duration] is. *)
Record Pinger : Type := { pinger_addr : string; Count : Z; Timeout : Z }.

Definition Second : Z := 1000000000.

(** [ping.New]: no packet limit, no deadline. *)
Definition ping_New (addr : string) : Pinger :=
  {| pinger_addr := addr; Count := -1; Timeout := 9223372036854775807 |}.

(** What [pinger.Run()] leaves behind: an error, or the statistics of a
    completed run, of which the program reads [PacketsRecv]. *)
Inductive RunResult : Type :=
  | RunError (err : string)
  | RunDone (PacketsRecv : Z).

(** The configuration [pingAddress] runs with. *)
Definition configure (address : IP) : Pinger :=
  let pinger := ping_New (IP_String address) in
  let pinger := {| pinger_addr := pinger_addr pinger; Count := 2; Timeout := Timeout pinger |} in
  {| pinger_addr := pinger_addr pinger; Count := Count pinger; Timeout := 5 * Second |}.

(** Pointers to the goroutines' [ip] variables: a cell of the store per
    variable, addressed by its position. *)
Abbreviation store := (list IP).

(** How a call of [analyze] ends. *)
Inductive outcome : Type :=
  | Returned (addressPool : gmap nat bool)
  | Failed (err : string)
  | Crashed.

Record run : Type :=
  { dispatched : list IP;   (* addresses handed to a goroutine, in order *)
    cells : store;          (* the store when the call ends *)
    result : outcome }.

Section Program.

(** The network: [Run] answers for [pinger.Run()], [ParseCIDR] for
    [net.ParseCIDR]. *)
Variable Run : Pinger → RunResult.
Variable ParseCIDR : string → option IPNet.

Definition pingAddress (address : IP) : bool * option string :=
  match Run (configure address) with
  | RunError err => (false, Some err)
  | RunDone PacketsRecv =>
      if 0 <? PacketsRecv then (true, None) else (false, None)
  end.

(** The body of the goroutine, from the probe to the write under the
    lock; [ptr] is the address of its parameter [ip]. *)
Definition goroutine (addressPool : gmap nat bool) (ptr : nat) (ip : IP)
  : gmap nat bool :=
  match pingAddress ip with
  | (_, Some _) => addressPool
  | (used, None) => <[ptr := used]> addressPool
  end.

(** [n] rounds of the loop body as far as the address is concerned:
    increment in place, copy, hand the copy over.  The result is the
    copies made and the address left in [network.IP], unless an
    increment panicked. *)
Fixpoint enumerate (n : nat) (lastOctet : Z) (address : IP) : list IP * exec IP :=
  match n with
  | O => ([], Value address)
  | S n' =>
      match increment address lastOctet 1 with
      | Panic => ([], Panic)
      | Value address' =>
          let '(rest, final) := enumerate n' lastOctet address' in
          (address' :: rest, final)
      end
  end.

(** [maximumNumberOfHostst] *)
Definition maximumNumberOfHosts (network : IPNet) : exec Z :=
  let '(numberOfAddressOnes, numberOfAddressBits) := Size (net_Mask network) in
  v ← shl 1 (int_wrap (numberOfAddressBits - numberOfAddressOnes));
  Value (int_wrap (v - 2)).

(** [int(math.Round(float64(numberOfAddessOnes/8)))]: the quotient is an
    integer before it is converted, so rounding leaves it as it is. *)
Definition octet_of_prefix (network : IPNet) : Z :=
  Z.quot (fst (Size (net_Mask network))) 8.

(** Trips of [for i := 1; i < maximumNumberOfHostst+1; i++]. *)
Definition trips (maximum : Z) : nat := Z.to_nat (int_wrap (maximum + 1) - 1).

(** Every goroutine run to its end, in the order of dispatch. *)
Fixpoint sweep (addressPool : gmap nat bool) (ptr : nat) (ips : list IP)
  : gmap nat bool :=
  match ips with
  | [] => addressPool
  | ip :: ips' => sweep (goroutine addressPool ptr ip) (S ptr) ips'
  end.

(** [analyze], with the goroutines taken in the order of dispatch; the
    scheduler below takes them in any order. *)
Definition analyze (σ : store) (adessWithPrefix : string) : run :=
  match ParseCIDR adessWithPrefix with
  | None =>
      {| dispatched := []; cells := σ;
         result := Failed ("Invalid address: " +:+ adessWithPrefix) |}
  | Some network =>
      match maximumNumberOfHosts network with
      | Panic => {| dispatched := []; cells := σ; result := Crashed |}
      | Value maximum =>
          let '(ips, final) :=
            enumerate (trips maximum) (octet_of_prefix network) (net_IP network) in
          {| dispatched := ips; cells := σ ++ ips;
             result := match final with
                       | Panic => Crashed
                       | Value _ => Returned (sweep ∅ (length σ) ips)
                       end |}
      end
  end.

End Program.

(** A network on which every probe gets [n] replies, and one on which no
    probe can be performed. *)
Definition replies (n : Z) : Pinger → RunResult := fun _ => RunDone n.
Definition unreachable_transport : Pinger → RunResult :=
  fun _ => RunError "sendto: operation not permitted".

(** ** The goroutines under a scheduler

    [analyze] starts a goroutine per address and joins them through the
    wait group; the goroutines share the pool under the mutex.  The machine
    below runs [analyze] one scheduling decision at a time. *)

Module Sched.

(** Where a goroutine stands. *)
Inductive pc : Type :=
  | AtPing                  (* before [pingAddress(ip)] *)
  | AtLock (used : bool)    (* before [a.mu.Lock()] *)
  | AtStore (used : bool)   (* holds the lock, before [addressPool[&ip] = used] *)
  | AtUnlock                (* holds the lock, before [a.mu.Unlock()] *)
  | AtDone                  (* before the deferred [a.wg.Done()] *)
  | Exited.

Record task : Type := { task_ip : IP; task_ptr : nat; task_pc : pc }.

(** Where the calling goroutine stands. *)
Inductive main_pc : Type :=
  | Looping (i : Z)         (* at the loop test with this [i] *)
  | AtWait                  (* at [a.wg.Wait()] *)
  | AtReturn                (* has returned [addressPool, nil] *)
  | Panicked.               (* the process is gone *)

Record state : Type :=
  { main : main_pc;
    network_IP : IP;
    tasks : list task;
    wg : Z;                 (* the counter of [a.wg] *)
    mu : bool;              (* [a.mu] is held *)
    heap : store;
    addressPool : gmap nat bool }.

Inductive action : Type :=
  | Main
  | Go (t : nat).

Definition set_pc (t : nat) (p : pc) (s : state) : list task :=
  alter (fun k => {| task_ip := task_ip k; task_ptr := task_ptr k; task_pc := p |})
    t (tasks s).

Section Machine.

Variable Run : Pinger → RunResult.
(** The loop bound [maximumNumberOfHostst+1] and the octet index, both
    fixed before the loop. *)
Variables (bound lastOctet : Z).

(** One step of the caller.  [None]: it cannot move (blocked in
    [Wait], returned, or dead). *)
Definition step_main (s : state) : option state :=
  match main s with
  | Looping i =>
      if i <? bound then
        match increment (network_IP s) lastOctet 1 with
        | Panic =>
            Some {| main := Panicked; network_IP := network_IP s; tasks := tasks s;
                    wg := wg s; mu := mu s; heap := heap s;
                    addressPool := addressPool s |}
        | Value address' =>
            Some {| main := Looping (int_wrap (i + 1)); network_IP := address';
                    tasks := tasks s ++
                      [{| task_ip := address'; task_ptr := length (heap s);
                          task_pc := AtPing |}];
                    wg := wg s + 1; mu := mu s; heap := heap s ++ [address'];
                    addressPool := addressPool s |}
        end
      else
        Some {| main := AtWait; network_IP := network_IP s; tasks := tasks s;
                wg := wg s; mu := mu s; heap := heap s;
                addressPool := addressPool s |}
  | AtWait =>
      if wg s =? 0 then
        Some {| main := AtReturn; network_IP := network_IP s; tasks := tasks s;
                wg := wg s; mu := mu s; heap := heap s;
                addressPool := addressPool s |}
      else None
  | AtReturn | Panicked => None
  end.

(** One step of goroutine [t]. *)
Definition step_task (t : nat) (s : state) : option state :=
  match main s with
  | Panicked => None
  | _ =>
      k ← tasks s !! t;
      match task_pc k with
      | AtPing =>
          let next := match pingAddress Run (task_ip k) with
                      | (_, Some _) => AtDone
                      | (used, None) => AtLock used
                      end in
          Some {| main := main s; network_IP := network_IP s;
                  tasks := set_pc t next s; wg := wg s; mu := mu s;
                  heap := heap s; addressPool := addressPool s |}
      | AtLock used =>
          if mu s then None
          else Some {| main := main s; network_IP := network_IP s;
                       tasks := set_pc t (AtStore used) s; wg := wg s; mu := true;
                       heap := heap s; addressPool := addressPool s |}
      | AtStore used =>
          Some {| main := main s; network_IP := network_IP s;
                  tasks := set_pc t AtUnlock s; wg := wg s; mu := mu s;
                  heap := heap s;
                  addressPool := <[task_ptr k := used]> (addressPool s) |}
      | AtUnlock =>
          Some {| main := main s; network_IP := network_IP s;
                  tasks := set_pc t AtDone s; wg := wg s; mu := false;
                  heap := heap s; addressPool := addressPool s |}
      | AtDone =>
          Some {| main := main s; network_IP := network_IP s;
                  tasks := set_pc t Exited s; wg := wg s - 1; mu := mu s;
                  heap := heap s; addressPool := addressPool s |}
      | Exited => None
      end
  end.

Definition step (a : action) (s : state) : option state :=
  match a with
  | Main => step_main s
  | Go t => step_task t s
  end.

(** A schedule is the list of decisions taken; it is admissible when
    every decision picks a goroutine that can move. *)
Fixpoint exec_schedule (sched : list action) (s : state) : option state :=
  match sched with
  | [] => Some s
  | a :: sched' => s' ← step a s; exec_schedule sched' s'
  end.

End Machine.

(** The state in which [analyze] enters its loop: the analyzer's wait
    group at zero, its mutex free, the pool just made. *)
Definition init (σ : store) (network : IPNet) : state :=
  {| main := Looping 1; network_IP := net_IP network; tasks := []; wg := 0;
     mu := false; heap := σ; addressPool := ∅ |}.

(** The states a call of [analyze] on a parsed network can be in. *)
Definition reachable (Run : Pinger → RunResult) (σ : store) (network : IPNet)
    (s : state) : Prop :=
  ∃ maximum sched,
    maximumNumberOfHosts network = Value maximum ∧
    exec_schedule Run (int_wrap (maximum + 1)) (octet_of_prefix network)
      sched (init σ network) = Some s.

Definition holds_lock (k : task) : bool :=
  match task_pc k with
  | AtStore _ | AtUnlock => true
  | _ => false
  end.

Definition running (k : task) : bool :=
  match task_pc k with
  | Exited => false
  | _ => true
  end.

End Sched.

(** ** Notions the statements and proofs use *)

(** The integers [lo], [lo + 1], ..., [lo + n - 1]. *)
Definition zrange (lo : Z) (n : nat) : list Z := map (fun i => lo + Z.of_nat i) (seq 0 n).

(** The bytes a CIDR mask is made of. *)
Definition mask_bytes : list Z := [0; 128; 192; 224; 240; 248; 252; 254; 255].

(** The room left from octet [k] on: how far the bytes there are from 254. *)
Definition slack (k : nat) (address : IP) : Z :=
  foldr (fun b acc => 254 - b + acc) 0 (drop k address).

(** From octet [k] on, every byte is at most 254. *)
Definition below_255 (k : nat) (address : IP) : Prop :=
  Forall (fun x => 0 <= x <= 254) (drop k address).

(** The usable hosts of a network whose prefix is 24 or more. *)
Definition hosts24 (a b c d : Z) (n : Z) : list IP :=
  map (fun i => [a; b; c; d + Z.of_nat i]) (seq 1 (Z.to_nat (2 ^ (32 - n) - 2))).

(** What a goroutine's probe contributes to the pool. *)
Definition entry (Run : Pinger → RunResult) (ip : IP) : option bool :=
  match pingAddress Run ip with
  | (_, Some _) => None
  | (used, None) => Some used
  end.

(** What C5 says of the keys: a key is the address's value, so two
    pointers to equal addresses are one key. *)
Definition keyed_by_value (σ : store) (pool : gmap nat bool) : Prop :=
  ∀ p q x, σ !! p = Some x → σ !! q = Some x → pool !! p = pool !! q.

(** How many goroutines satisfy [P]. *)
Fixpoint tally (P : Sched.task → bool) (l : list Sched.task) : Z :=
  match l with
  | [] => 0
  | k :: l' => (if P k then 1 else 0) + tally P l'
  end.

(** Has this goroutine been past its write (or past the point where it
    would have written)? *)
Definition past_store (k : Sched.task) : bool :=
  match Sched.task_pc k with
  | Sched.AtUnlock | Sched.AtDone | Sched.Exited => true
  | _ => false
  end.

(** The verdict a goroutine carries is the one its probe gave. *)
Definition pc_agrees (Run : Pinger → RunResult) (k : Sched.task) : Prop :=
  match Sched.task_pc k with
  | Sched.AtLock used | Sched.AtStore used => entry Run (Sched.task_ip k) = Some used
  | Sched.AtUnlock => is_Some (entry Run (Sched.task_ip k))
  | _ => True
  end.

(** The pool as the goroutines' positions determine it. *)
Definition pool_of (Run : Pinger → RunResult) (σ : store) (tasks : list Sched.task)
    (l : nat) : option bool :=
  match (if decide (length σ <= l)%nat then tasks !! (l - length σ)%nat else None) with
  | Some k => if past_store k then entry Run (Sched.task_ip k) else None
  | None => None
  end.

(** What holds in every state of a call. *)
Record invariant (Run : Pinger → RunResult) (bound lastOctet : Z) (σ : store)
    (address : IP) (s : Sched.state) : Prop :=
  { inv_heap : Sched.heap s = σ ++ map Sched.task_ip (Sched.tasks s);
    inv_ptr : ∀ t k, Sched.tasks s !! t = Some k → Sched.task_ptr k = (length σ + t)%nat;
    inv_enum :
      enumerate (length (Sched.tasks s)) lastOctet address =
        (map Sched.task_ip (Sched.tasks s), Value (Sched.network_IP s));
    inv_loop :
      match Sched.main s with
      | Sched.Looping i =>
          i = Z.of_nat (length (Sched.tasks s)) + 1 ∧
          (length (Sched.tasks s) = 0%nat ∨ Z.of_nat (length (Sched.tasks s)) < bound)
      | Sched.AtWait => length (Sched.tasks s) = Z.to_nat (bound - 1)
      | Sched.AtReturn =>
          length (Sched.tasks s) = Z.to_nat (bound - 1) ∧ Sched.wg s = 0
      | Sched.Panicked =>
          Z.of_nat (length (Sched.tasks s)) + 1 < bound ∧
          increment (Sched.network_IP s) lastOctet 1 = Panic
      end;
    inv_wg : Sched.wg s = tally Sched.running (Sched.tasks s);
    inv_mu : tally Sched.holds_lock (Sched.tasks s) = if Sched.mu s then 1 else 0;
    inv_pc : ∀ t k, Sched.tasks s !! t = Some k → pc_agrees Run k;
    inv_pool : ∀ l, Sched.addressPool s !! l = pool_of Run σ (Sched.tasks s) l }.

(** The steps a goroutine has left, at most. *)
Definition steps_left (k : Sched.task) : Z :=
  match Sched.task_pc k with
  | Sched.AtPing => 5
  | Sched.AtLock _ => 4
  | Sched.AtStore _ => 3
  | Sched.AtUnlock => 2
  | Sched.AtDone => 1
  | Sched.Exited => 0
  end.

Fixpoint work (l : list Sched.task) : Z :=
  match l with
  | [] => 0
  | k :: l' => steps_left k + work l'
  end.

(** A bound on the steps a call has left: each round of the loop takes a
    step and starts a goroutine of at most five. *)
Definition steps_bound (bound : Z) (s : Sched.state) : Z :=
  work (Sched.tasks s) +
  match Sched.main s with
  | Sched.Looping i => 6 * Z.max 0 (bound - i) + 2
  | Sched.AtWait => 1
  | Sched.AtReturn | Sched.Panicked => 0
  end.

(** The call is over: it has returned, or the process has died. *)
Definition ended (s : Sched.state) : Prop :=
  Sched.main s = Sched.AtReturn ∨ Sched.main s = Sched.Panicked.


(** ** The analyzer *)

(** [Analyzer]: the mutex (held or not) and the counter of the wait group. *)
Record Analyzer : Type := { analyzer_mu : bool; analyzer_wg : Z }.

(** [NewAnalizer]: the zero value of both. *)
Definition NewAnalizer : Analyzer := {| analyzer_mu := false; analyzer_wg := 0 |}.

(** The analyzer as a state of the machine has it. *)
Definition analyzer_of (s : Sched.state) : Analyzer :=
  {| analyzer_mu := Sched.mu s; analyzer_wg := Sched.wg s |}.

(** ** The caller: waiting and showing the result *)

Definition numColumns : nat := 4.
Definition columntPadding : Z := 15.
Definition paddingBetweenIpState : Z := 15.

(** [showOnlyUsedIPs]: set when the first argument after the program name
    is "-u". *)
Definition showOnlyUsedIPs (Args : list string) : bool :=
  match Args with
  | _ :: arg :: _ => String.eqb arg "-u"
  | _ => false
  end.

(** One round of the loading loop after its frame is shown: a dot more,
    and back to the bare word every fourth round. *)
Definition loading_round (st : Z * string) : Z * string :=
  let '(count, msg) := st in
  let msg := msg +:+ "." in
  let count := int_wrap (count + 1) in
  if count =? 4 then (0, "loading"%string) else (count, msg).

(** The frames the loading loop shows.  [polls] are the values of [pool]
    the loop test sees, one per test; the loop goes on while the pool it
    sees is empty. *)
Fixpoint loading_from (st : Z * string) (polls : list (gmap nat bool)) : list string :=
  match polls with
  | [] => []
  | pool :: polls' =>
      if (size pool =? 0)%nat then st.2 :: loading_from (loading_round st) polls'
      else []
  end.

Definition loading (polls : list (gmap nat bool)) : list string :=
  loading_from (0, "loading"%string) polls.

(** [bytes.Compare]: -1, 0 or 1 as the first slice is below, equal to or
    above the second in lexicographic order. *)
Fixpoint bytes_Compare (a b : list Z) : Z :=
  match a, b with
  | [], [] => 0
  | [], _ :: _ => -1
  | _ :: _, [] => 1
  | x :: a', y :: b' =>
      if x <? y then -1 else if y <? x then 1 else bytes_Compare a' b'
  end.

Fixpoint spaces (n : nat) : string :=
  match n with
  | O => EmptyString
  | S n' => String " " (spaces n')
  end.

(** The verb [%-*s]: the string, then blanks up to the width. *)
Definition pad_right (width : Z) (s : string) : string :=
  s +:+ spaces (Z.to_nat (width - Z.of_nat (String.length s))).

Definition newline : string := String (ascii_of_nat 10) EmptyString.

Section Render.

(** [sort.Slice] is the library's; the store and the pool are those the
    call of [analyze] left. *)
Variable sort_Slice : (nat → nat → bool) → list nat → list nat.
Variables (σ : store) (pool : gmap nat bool).

(** [*ip] and [pool[ip]]; a key the map does not have reads as [false]. *)
Definition deref (ip : nat) : IP := default [] (σ !! ip).
Definition at_key (ip : nat) : bool := default false (pool !! ip).

(** The loop over the pool that fills [ips]; [keys] is the order in which
    [range pool] yields the keys. *)
Definition collect (showOnlyUsed : bool) (keys : list nat) : list nat :=
  List.filter (fun ip => negb (showOnlyUsed && negb (at_key ip))) keys.

(** The [less] function handed to [sort.Slice]. *)
Definition less (a b : nat) : bool := bytes_Compare (deref a) (deref b) <? 0.

Definition entry_cell (ip : nat) : string :=
  let status := if at_key ip then "used" else "free" in
  let color := if at_key ip then "[green]" else "[red]" in
  pad_right paddingBetweenIpState (IP_String (deref ip)) +:+ " - " +:+ color +:+
  pad_right 4 status +:+ "[white]    ".

Definition filler_cell : string := pad_right columntPadding "" +:+ "    ".

(** What the inner loop prints at position [i + j]. *)
Definition cell (ips : list nat) (idx : nat) : string :=
  match ips !! idx with
  | Some ip => entry_cell ip
  | None => filler_cell
  end.

(** The cells of the row that starts at [i]. *)
Definition row (ips : list nat) (i : nat) : list string :=
  map (fun j => cell ips (i + j)) (seq 0 numColumns).

(** The outer loop, from [i] on, a row per round. *)
Fixpoint rows (fuel : nat) (ips : list nat) (i : nat) : list (list string) :=
  match fuel with
  | O => []
  | S fuel' =>
      if (i <? length ips)%nat then row ips i :: rows fuel' ips (i + numColumns)
      else []
  end.

Definition print_rows (rs : list (list string)) : string :=
  foldr (fun r text => foldr String.app newline r +:+ text) EmptyString rs.

(** The sorted slice of pointers the grid is printed from. *)
Definition shown (showOnlyUsed : bool) (keys : list nat) : list nat :=
  sort_Slice less (collect showOnlyUsed keys).

(** The text in the view once the result is shown. *)
Definition render (showOnlyUsed : bool) (keys : list nat) (input : string) : string :=
  let ips := shown showOnlyUsed keys in
  "Analyzed address pool: " +:+ input +:+ newline +:+ newline +:+
  print_rows (rows (length ips) ips 0).

End Render.

(** What the program relies on from [sort.Slice]: the result holds the
    same pointers, and no later one is [less] than an earlier one. *)
Definition sorts (sort_Slice : (nat → nat → bool) → list nat → list nat)
    (σ : store) : Prop :=
  ∀ l, sort_Slice (less σ) l ≡ₚ l ∧
       ∀ i j x y, (i < j)%nat →
                  sort_Slice (less σ) l !! i = Some x →
                  sort_Slice (less σ) l !! j = Some y → less σ y x = false.

(** "Not above": the relation a sorted slice has between an earlier and a
    later element. *)
Definition not_above (σ : store) (x y : nat) : Prop := less σ y x = false.

(** A sort to run the model with: insertion from the left. *)
Fixpoint insert_sorted (less : nat → nat → bool) (x : nat) (l : list nat) : list nat :=
  match l with
  | [] => [x]
  | y :: l' => if less y x then y :: insert_sorted less x l' else x :: l
  end.

Definition insertion_sort (less : nat → nat → bool) (l : list nat) : list nat :=
  foldr (insert_sorted less) [] l.

(** [n] dots. *)
Fixpoint dots (n : nat) : string :=
  match n with
  | O => EmptyString
  | S n' => String "." (dots n')
  end.

(** * Properties *)

(** ** The model on concrete inputs *)

Example parse_10_0_0_0_30 :
  ParseCIDR4 "10.0.0.0/30" = Some {| net_IP := [10; 0; 0; 0]; net_Mask := [255; 255; 255; 252] |}.
Proof. reflexivity. Qed.

Example parse_masks_host_bits :
  ParseCIDR4 "192.168.7.77/20" =
    Some {| net_IP := [192; 168; 0; 0]; net_Mask := [255; 255; 240; 0] |}.
Proof. reflexivity. Qed.

Example parse_not_an_address : ParseCIDR4 "not-an-address" = None.
Proof. reflexivity. Qed.

Example parse_rejects :
  ParseCIDR4 "10.0.0.0/33" = None ∧ ParseCIDR4 "10.0.0/24" = None ∧
  ParseCIDR4 "10.0.0.256/24" = None ∧ ParseCIDR4 "10.0.0.01/24" = None ∧
  ParseCIDR4 "10.0.0.0/" = None.
Proof. repeat split; reflexivity. Qed.

Example string_of_ip : IP_String [10; 0; 254; 1] = "10.0.254.1"%string.
Proof. reflexivity. Qed.

Example analyze_10_0_0_0_30 :
  analyze (replies 1) ParseCIDR4 [] "10.0.0.0/30" =
    {| dispatched := [[10; 0; 0; 1]; [10; 0; 0; 2]];
       cells := [[10; 0; 0; 1]; [10; 0; 0; 2]];
       result := Returned (<[0%nat := true]> (<[1%nat := true]> ∅)) |}.
Proof. vm_compute. reflexivity. Qed.


(** ** Finite case analysis on integers *)

Lemma zrange_cases (P : Z → Prop) (lo : Z) (n : nat) :
  Forall P (zrange lo n) → ∀ z, lo <= z < lo + Z.of_nat n → P z.
Proof.
  intros HP z Hz. rewrite Forall_forall in HP. apply HP.
  unfold zrange. apply list_elem_of_fmap. exists (Z.to_nat (z - lo)). split; [lia|].
  apply elem_of_seq. lia.
Qed.

Lemma zrange_check (f : Z → bool) (lo : Z) (n : nat) :
  forallb f (zrange lo n) = true → ∀ z, lo <= z < lo + Z.of_nat n → f z = true.
Proof.
  intros Hf. apply zrange_cases. apply Forall_forall. intros z Hz.
  rewrite forallb_forall in Hf. apply Hf. by apply list_elem_of_In.
Qed.

(** Split a goal [∀ z, lo <= z < lo + n → P z] into its [n] instances. *)
Ltac by_cases_on_range lo n :=
  apply (zrange_cases _ lo n);
  let l := eval vm_compute in (zrange lo n) in
  change (zrange lo n) with l;
  repeat first [apply Forall_cons_2 | apply Forall_nil_2].

(** ** Masks and networks *)

Lemma mask_byte_facts (x m : Z) :
  0 <= x < 256 → m ∈ mask_bytes →
  0 <= Z.land x m <= m ∧ Z.lor (Z.land x m) (Z.lxor m 255) = Z.land x m + 255 - m.
Proof.
  intros Hx Hm.
  assert (Hall : forallb (fun m => forallb (fun x =>
            (0 <=? Z.land x m) && (Z.land x m <=? m) &&
            (Z.lor (Z.land x m) (Z.lxor m 255) =? Z.land x m + 255 - m))
            (zrange 0 256)) mask_bytes = true) by (vm_compute; reflexivity).
  rewrite forallb_forall in Hall.
  apply list_elem_of_In, Hall in Hm.
  apply (zrange_check _ 0 256) with (z := x) in Hm; [|lia].
  apply andb_prop in Hm as [Hm H3]. apply andb_prop in Hm as [H1 H2]. lia.
Qed.

Lemma mask_byte_range (m : Z) : m ∈ mask_bytes → m <= 255.
Proof.
  unfold mask_bytes. intros H.
  repeat (apply elem_of_cons in H as [->|H]; [lia|]). by apply elem_of_nil in H.
Qed.

Lemma Size_CIDRMask (n : Z) : 0 <= n <= 32 → Size (CIDRMask n 32) = (n, 32).
Proof.
  intros Hn. revert n Hn.
  enough (H : ∀ n, 0 <= n < 0 + Z.of_nat 33 → Size (CIDRMask n 32) = (n, 32))
    by (intros n Hn; apply H; lia).
  by_cases_on_range 0 33%nat; vm_compute; reflexivity.
Qed.

(** The mask of a prefix: full bytes, one partial byte, empty bytes. *)
Lemma CIDRMask_shape (n : Z) :
  0 <= n <= 32 →
  ∃ m0 m1 m2 m3,
    CIDRMask n 32 = [m0; m1; m2; m3] ∧
    m0 ∈ mask_bytes ∧ m1 ∈ mask_bytes ∧ m2 ∈ mask_bytes ∧ m3 ∈ mask_bytes ∧
    (24 <= n → m0 = 255 ∧ m1 = 255 ∧ m2 = 255 ∧ m3 = 256 - 2 ^ (32 - n)) ∧
    (n <= 24 → m3 = 0) ∧
    (n <= 31 → Forall (fun m => m <= 254) (drop (Z.to_nat (n / 8)) [m0; m1; m2; m3])).
Proof.
  intros Hn. cut (0 <= n < 0 + Z.of_nat 33); [clear Hn; revert n | lia].
  by_cases_on_range 0 33%nat.
  all: do 4 eexists; split; [vm_compute; reflexivity|].
  all: unfold mask_bytes; repeat split; try set_solver; try lia.
  all: intros _; vm_compute; repeat constructor; discriminate.
Qed.

(** The shape of a parsed network: four bytes; from the octet the prefix
    ends in onwards no byte is 255 (unless the prefix is /32); with a
    prefix of 24 or more only the last byte has host bits. *)
Lemma network_shape (ip : IP) (n : Z) :
  length ip = 4%nat → Forall (fun b => 0 <= b < 256) ip → 0 <= n <= 32 →
  ∃ a b c d,
    net_IP (cidr_network ip n) = [a; b; c; d] ∧
    (0 <= a <= 255 ∧ 0 <= b <= 255 ∧ 0 <= c <= 255 ∧ 0 <= d <= 255) ∧
    (n <= 31 → Forall (fun x => 0 <= x <= 254) (drop (Z.to_nat (n / 8)) [a; b; c; d])) ∧
    (n <= 24 → ∃ e f g,
       broadcast (net_IP (cidr_network ip n)) (net_Mask (cidr_network ip n)) = [e; f; g; 255]) ∧
    (24 <= n →
       broadcast (net_IP (cidr_network ip n)) (net_Mask (cidr_network ip n))
         = [a; b; c; d + 2 ^ (32 - n) - 1] ∧ d + 2 ^ (32 - n) <= 256).
Proof.
  intros Hlen Hip Hn.
  destruct ip as [|x0 [|x1 [|x2 [|x3 [|]]]]]; try discriminate.
  apply Forall_cons in Hip as [H0 Hip]. apply Forall_cons in Hip as [H1 Hip].
  apply Forall_cons in Hip as [H2 Hip]. apply Forall_cons in Hip as [H3 _].
  destruct (CIDRMask_shape n Hn)
    as (m0 & m1 & m2 & m3 & Hmask & M0 & M1 & M2 & M3 & Hhi & Hlo & Hmid).
  unfold cidr_network, mask_ip, broadcast. simpl. rewrite Hmask. simpl.
  destruct (mask_byte_facts x0 m0 H0 M0) as [B0 ->].
  destruct (mask_byte_facts x1 m1 H1 M1) as [B1 ->].
  destruct (mask_byte_facts x2 m2 H2 M2) as [B2 ->].
  destruct (mask_byte_facts x3 m3 H3 M3) as [B3 ->].
  assert (m0 <= 255 ∧ m1 <= 255 ∧ m2 <= 255 ∧ m3 <= 255) as (L0 & L1 & L2 & L3).
  { repeat split; eapply mask_byte_range; eassumption. }
  generalize dependent (Z.land x0 m0). generalize dependent (Z.land x1 m1).
  generalize dependent (Z.land x2 m2). generalize dependent (Z.land x3 m3).
  intros d B3 c B2 b B1 a B0.
  exists a, b, c, d. split; [reflexivity|]. split; [lia|]. split; [|split].
  - intros Hle. specialize (Hmid Hle).
    destruct (Z.to_nat (n / 8)) as [|[|[|[|]]]]; simpl in *;
      repeat match goal with
             | H : Forall _ (_ :: _) |- _ => apply Forall_cons in H as [? H]
             end;
      rewrite ?drop_nil;
      repeat first [apply Forall_cons_2 | apply Forall_nil_2]; cbv beta in *; lia.
  - intros Hle. specialize (Hlo Hle). subst m3.
    exists (a + 255 - m0), (b + 255 - m1), (c + 255 - m2).
    replace (d + 255 - 0) with 255 by lia. reflexivity.
  - intros Hge. destruct (Hhi Hge) as (-> & -> & -> & ->).
    assert (0 < 2 ^ (32 - n)) by (apply Z.pow_pos_nonneg; lia).
    split; [|lia]. repeat (apply (f_equal2 cons); [lia|]). reflexivity.
Qed.

Lemma ParseCIDR4_ipv4 (s : string) (network : IPNet) :
  ParseCIDR4 s = Some network → ipv4_network network.
Proof.
  unfold ParseCIDR4, parseIPv4. intros H.
  destruct (cut "/" s) as [[addr mask]|]; [|discriminate]. simpl in H.
  destruct (cut "." addr) as [[f0 r0]|]; [|discriminate]. simpl in H.
  destruct (cut "." r0) as [[f1 r1]|]; [|discriminate]. simpl in H.
  destruct (cut "." r1) as [[f2 f3]|]; [|discriminate]. simpl in H.
  assert (Hoct : ∀ f v, parse_octet f = Some v → 0 <= v < 256).
  { intros f v. unfold parse_octet. destruct f as [|x f']; [discriminate|].
    repeat case_match; try discriminate. intros [= <-].
    match goal with H : (_ <=? 255) = true |- _ => apply Z.leb_le in H end.
    change (decimal (0 * 10 + digit_value x) f') with (decimal 0 (String x f')).
    split; [|lia].
    assert (Hd : ∀ s acc, all_digits s = true → 0 <= acc → 0 <= decimal acc s).
    { clear. induction s as [|c s IH]; intros acc Hs Hacc; simpl in *; [done|].
      apply andb_prop in Hs as [Hc Hs]. apply IH; [done|].
      unfold is_digit in Hc. unfold digit_value. lia. }
    apply Hd; [|lia]. by apply negb_false_iff. }
  destruct (parse_octet f0) as [a|] eqn:Ha; [|discriminate]. simpl in H.
  destruct (parse_octet f1) as [b|] eqn:Hb; [|discriminate]. simpl in H.
  destruct (parse_octet f2) as [c|] eqn:Hc; [|discriminate]. simpl in H.
  destruct (parse_octet f3) as [d|] eqn:Hd; [|discriminate]. simpl in H.
  destruct (parse_prefix mask) as [n|] eqn:Hn; [|discriminate]. simpl in H.
  injection H as <-. exists [a; b; c; d], n. split; [done|]. split.
  { repeat first [apply Forall_cons_2 | apply Forall_nil_2]; eauto. }
  split; [|done].
  unfold parse_prefix in Hn. destruct mask as [|x m]; [discriminate|].
  destruct (dtoi 0 (String x m)) as [v|] eqn:Hv; [|discriminate]. simpl in Hn.
  case_match; [|discriminate]. injection Hn as <-.
  match goal with H : (_ <=? 32) = true |- _ => apply Z.leb_le in H end.
  split; [|lia].
  assert (Hpos : ∀ s acc v, dtoi acc s = Some v → 0 <= acc → 0 <= v).
  { clear. induction s as [|c s IH]; intros acc v H Hacc; simpl in *.
    - injection H as <-. done.
    - destruct (is_digit c) eqn:Hc; [|discriminate]. case_match; [discriminate|].
      eapply IH; [eassumption|]. unfold is_digit in Hc. unfold digit_value. lia. }
  eapply Hpos; [eassumption|lia].
Qed.

(** ** One increment *)

Ltac unfold_increment :=
  unfold increment, scan, add_at, index; simpl;
  repeat match goal with
         | |- context [?x =? ?y] => destruct (Z.eqb_spec x y); simpl
         end;
  unfold mbind, exec_bind, byte_wrap; simpl;
  change (1 mod 256) with 1.

Ltac split_Forall :=
  repeat match goal with
         | H : Forall _ (_ :: _) |- _ => apply Forall_cons in H as [? H]
         end;
  repeat first [apply Forall_cons_2 | apply Forall_nil_2]; cbv beta in *.

(** With no byte at 255 from octet [k] on, an increment uses up one unit
    of room, touches nothing before octet [k], and panics exactly when no
    room is left. *)
Lemma increment_uses_room (k : nat) (address : IP) :
  length address = 4%nat → (k <= 3)%nat → below_255 k address →
  match increment address (Z.of_nat k) 1 with
  | Panic => slack k address = 0
  | Value address' =>
      length address' = 4%nat ∧ take k address' = take k address ∧
      below_255 k address' ∧ slack k address' = slack k address - 1
  end.
Proof.
  intros Hlen Hk Hb. unfold below_255, slack in *.
  destruct address as [|a [|b [|c [|d [|]]]]]; try discriminate.
  destruct k as [|[|[|[|]]]]; try lia; simpl in Hb; split_Forall;
    unfold_increment; simpl;
    rewrite ?Z.mod_small by lia;
    try lia;
    (split; [reflexivity|]); (split; [reflexivity|]);
    (split; [split_Forall; lia | lia]).
Qed.

(** In the last octet, below 254, an increment is a plain [+1]. *)
Lemma increment_last_octet (a b c d : Z) :
  0 <= d < 254 → increment [a; b; c; d] 3 1 = Value [a; b; c; d + 1].
Proof.
  intros Hd. unfold_increment; try lia. by rewrite Z.mod_small by lia.
Qed.

(** ** The enumeration *)

Lemma slack_nonneg (k : nat) (address : IP) : below_255 k address → 0 <= slack k address.
Proof.
  unfold below_255, slack. generalize (drop k address).
  induction 1 as [|x l Hx _ IH]; simpl in *; lia.
Qed.

Lemma slack_bound (k : nat) (address : IP) :
  length address = 4%nat → (k <= 3)%nat → below_255 k address →
  slack k address <= 254 * (4 - Z.of_nat k).
Proof.
  intros Hlen Hk Hb. unfold below_255, slack in *.
  destruct address as [|a [|b [|c [|d [|]]]]]; try discriminate.
  destruct k as [|[|[|[|]]]]; try lia; simpl in *; split_Forall; lia.
Qed.

(** The addresses handed out, one unit of room apart, and how the loop
    ends: it completes when the room suffices and panics on the increment
    after the room is used up. *)
Lemma enumerate_room (n k : nat) (address : IP) :
  length address = 4%nat → (k <= 3)%nat → below_255 k address →
  (∀ i x, (enumerate n (Z.of_nat k) address).1 !! i = Some x →
     length x = 4%nat ∧ take k x = take k address ∧ below_255 k x ∧
     slack k x = slack k address - Z.of_nat (S i)) ∧
  match (enumerate n (Z.of_nat k) address).2 with
  | Value _ =>
      length (enumerate n (Z.of_nat k) address).1 = n ∧ Z.of_nat n <= slack k address
  | Panic =>
      (length (enumerate n (Z.of_nat k) address).1 < n)%nat ∧
      slack k address = Z.of_nat (length (enumerate n (Z.of_nat k) address).1)
  end.
Proof.
  revert address. induction n as [|n IH]; intros address Hlen Hk Hb.
  { simpl. split; [intros i x H; by rewrite lookup_nil in H|].
    split; [done|]. by apply slack_nonneg. }
  simpl. pose proof (increment_uses_room k address Hlen Hk Hb) as Hstep.
  destruct (increment address (Z.of_nat k) 1) as [address'|]; simpl.
  - destruct Hstep as (Hlen' & Htake & Hb' & Hslack).
    destruct (IH address' Hlen' Hk Hb') as [Hall Hend].
    destruct (enumerate n (Z.of_nat k) address') as [rest final]. simpl in *. split.
    + intros [|i] x Hx; simpl in Hx.
      * injection Hx as <-. repeat split; try done; lia.
      * destruct (Hall i x Hx) as (? & ? & ? & ?). repeat split; try done; [congruence | lia].
    + destruct final; simpl; lia.
  - split; [intros i x H; by rewrite lookup_nil in H|]. split; [lia|]. simpl. lia.
Qed.

(** A prefix of 24 or more: the last byte counts up from the network's. *)
Lemma enumerate_last_octet (n : nat) (a b c d : Z) :
  0 <= d → d + Z.of_nat n <= 254 →
  enumerate n 3 [a; b; c; d] =
    (map (fun i => [a; b; c; d + Z.of_nat i]) (seq 1 n), Value [a; b; c; d + Z.of_nat n]).
Proof.
  revert d. induction n as [|n IH]; intros d Hd Hn.
  { simpl. by rewrite Z.add_0_r. }
  simpl enumerate. rewrite increment_last_octet by lia. rewrite IH by lia.
  f_equal; [|do 5 f_equal; lia]. simpl. f_equal.
  rewrite <- (fmap_S_seq 1), <- list_fmap_compose. apply list_fmap_ext.
  intros i x _. simpl. do 4 f_equal. lia.
Qed.

(** ** Loop bounds *)

Lemma int_wrap_small (z : Z) : - 2 ^ 63 <= z < 2 ^ 63 → int_wrap z = z.
Proof.
  intros Hz. unfold int_wrap.
  change (2 ^ 63) with 9223372036854775808 in *.
  change (2 ^ 64) with 18446744073709551616.
  rewrite Z.mod_small; lia.
Qed.

Lemma host_count_range (n : Z) : 0 <= n <= 32 → 1 <= 2 ^ (32 - n) <= 2 ^ 32.
Proof.
  intros Hn. split.
  - assert (0 < 2 ^ (32 - n)) by (apply Z.pow_pos_nonneg; lia). lia.
  - apply Z.pow_le_mono_r; lia.
Qed.

(** On a parsed IPv4 network nothing wraps: the host count is the
    mathematical [2^(32-n) - 2], which is -1 and 0 for /32 and /31. *)
Lemma maximumNumberOfHosts_ipv4 (ip : IP) (n : Z) :
  0 <= n <= 32 →
  maximumNumberOfHosts (cidr_network ip n) = Value (2 ^ (32 - n) - 2).
Proof.
  intros Hn. unfold maximumNumberOfHosts. simpl net_Mask.
  rewrite Size_CIDRMask by done.
  pose proof (host_count_range n Hn) as Hp.
  change (2 ^ 32) with 4294967296 in Hp.
  rewrite (int_wrap_small (32 - n)) by (change (2 ^ 63) with 9223372036854775808; lia).
  unfold shl.
  destruct (Z.ltb_spec (32 - n) 0); [lia|].
  destruct (Z.leb_spec 64 (32 - n)); [lia|].
  unfold mbind, exec_bind. rewrite Z.mul_1_l.
  rewrite (int_wrap_small (2 ^ (32 - n)))
    by (change (2 ^ 63) with 9223372036854775808; lia).
  rewrite int_wrap_small by (change (2 ^ 63) with 9223372036854775808; lia).
  reflexivity.
Qed.

Lemma octet_of_prefix_ipv4 (ip : IP) (n : Z) :
  0 <= n <= 32 → octet_of_prefix (cidr_network ip n) = n / 8.
Proof.
  intros Hn. unfold octet_of_prefix. simpl net_Mask.
  rewrite Size_CIDRMask by done. simpl. apply Z.quot_div_nonneg; lia.
Qed.

Lemma trips_ipv4 (n : Z) :
  0 <= n <= 32 → trips (2 ^ (32 - n) - 2) = Z.to_nat (2 ^ (32 - n) - 2).
Proof.
  intros Hn. unfold trips. pose proof (host_count_range n Hn) as Hp.
  change (2 ^ 32) with 4294967296 in Hp.
  rewrite int_wrap_small by (change (2 ^ 63) with 9223372036854775808; lia).
  f_equal. lia.
Qed.

(** [analyze] on a string that parses to an IPv4 network. *)
Lemma analyze_ipv4 (Run : Pinger → RunResult) (ParseCIDR : string → option IPNet)
    (σ : store) (s : string) (ip : IP) (n : Z) :
  ParseCIDR s = Some (cidr_network ip n) → 0 <= n <= 32 →
  analyze Run ParseCIDR σ s =
    let e := enumerate (Z.to_nat (2 ^ (32 - n) - 2)) (n / 8) (net_IP (cidr_network ip n)) in
    {| dispatched := e.1; cells := σ ++ e.1;
       result := match e.2 with
                 | Panic => Crashed
                 | Value _ => Returned (sweep Run ∅ (length σ) e.1)
                 end |}.
Proof.
  intros Hparse Hn. unfold analyze. rewrite Hparse.
  rewrite maximumNumberOfHosts_ipv4, octet_of_prefix_ipv4, trips_ipv4 by done.
  by destruct (enumerate _ _ _).
Qed.

(** With a prefix of 24 or more the loop completes, and hands out the
    network address plus 1, plus 2, ... *)
Lemma enumerate_prefix24 (ip : IP) (n : Z) (a b c d : Z) :
  24 <= n <= 32 → net_IP (cidr_network ip n) = [a; b; c; d] →
  0 <= d → d + 2 ^ (32 - n) <= 256 →
  enumerate (Z.to_nat (2 ^ (32 - n) - 2)) (n / 8) (net_IP (cidr_network ip n)) =
    (hosts24 a b c d n, Value [a; b; c; d + Z.of_nat (Z.to_nat (2 ^ (32 - n) - 2))]).
Proof.
  intros Hn Hnet Hd Hroom. rewrite Hnet. unfold hosts24.
  destruct (decide (n = 32)) as [->|Hne].
  { simpl. by rewrite Z.add_0_r. }
  replace (n / 8) with 3.
  - apply enumerate_last_octet; [done|].
    assert (2 ^ 1 <= 2 ^ (32 - n)) by (apply Z.pow_le_mono_r; lia). lia.
  - apply Z.div_unique with (r := n - 24); lia.
Qed.

(** With a shorter prefix the room runs out before the loop is through. *)
Lemma prefix23_needs_more_room (n : Z) :
  0 <= n <= 23 → 254 * (4 - n / 8) < 2 ^ (32 - n) - 2 ∧ 0 <= n / 8 <= 2.
Proof.
  intros Hn. cut (0 <= n < 0 + Z.of_nat 24); [clear Hn; revert n | lia].
  by_cases_on_range 0 24%nat; vm_compute; split; try split; congruence.
Qed.

Lemma enumerate_prefix23 (ip : IP) (n : Z) :
  length ip = 4%nat → Forall (fun b => 0 <= b < 256) ip → 0 <= n <= 23 →
  (enumerate (Z.to_nat (2 ^ (32 - n) - 2)) (n / 8) (net_IP (cidr_network ip n))).2 = Panic.
Proof.
  intros Hlen Hip Hn.
  destruct (network_shape ip n Hlen Hip ltac:(lia)) as (a & b & c & d & -> & _ & Hb & _).
  destruct (prefix23_needs_more_room n Hn) as [Hroom Hk].
  specialize (Hb ltac:(lia)).
  pose proof (enumerate_room (Z.to_nat (2 ^ (32 - n) - 2)) (Z.to_nat (n / 8)) [a; b; c; d]
                eq_refl ltac:(lia) Hb) as [_ Hend].
  pose proof (slack_bound (Z.to_nat (n / 8)) [a; b; c; d] eq_refl ltac:(lia) Hb) as Hs.
  rewrite Z2Nat.id in * by lia.
  destruct (enumerate _ _ _).2; [lia|done].
Qed.

(** * The claims *)

(** ** The increment *)

(** C3, as stated, at a concrete input: the last byte is 255, yet an
    increment at octet 2 is not a no-op, it changes byte 2. *)
Lemma increment_at_255_not_noop :
  [10; 0; 0; 255] !! 3%nat = Some 255 ∧
  increment [10; 0; 0; 255] 2 1 = Value [10; 0; 1; 255] ∧
  increment [10; 0; 0; 255] 2 1 ≠ Value [10; 0; 0; 255].
Proof. split; [reflexivity|]. split; [reflexivity|]. discriminate. Qed.

(** C3, amended: [analyze] increments at octet [k = floor(prefixBits / 8)].
    On a four-byte address the increment moves right from [k] past every
    byte equal to 254 and, arriving in range at octet [j] with byte [b],
    adds 1 to that byte (modulo 256); it is a no-op exactly when it starts
    at octet 3 and that byte is 255. *)
Theorem increment_carry (ip address : IP) (n j b : Z) :
  0 <= n <= 31 → length address = 4%nat →
  let k := octet_of_prefix (cidr_network ip n) in
  k = n / 8 ∧
  (k <= j <= 3 →
   (∀ i, k <= i < j → address !! Z.to_nat i = Some 254) →
   address !! Z.to_nat j = Some b → b ≠ 254 →
   increment address k 1 =
     if decide (k = 3 ∧ b = 255) then Value address
     else Value (<[Z.to_nat j := (b + 1) mod 256]> address)).
Proof.
  intros Hn Hlen k. subst k. rewrite octet_of_prefix_ipv4 by lia.
  split; [reflexivity|].
  assert (Hk : 0 <= n / 8 <= 3).
  { split; [apply Z.div_pos; lia|]. apply Z.lt_succ_r, Z.div_lt_upper_bound; lia. }
  generalize dependent (n / 8). intros k Hk Hj Hskip Hb Hne.
  destruct address as [|a0 [|a1 [|a2 [|a3 [|]]]]]; try discriminate.
  assert (Hk' : k = 0 ∨ k = 1 ∨ k = 2 ∨ k = 3) by lia.
  assert (Hj' : j = 0 ∨ j = 1 ∨ j = 2 ∨ j = 3) by lia.
  pose proof (Hskip 0) as S0. pose proof (Hskip 1) as S1. pose proof (Hskip 2) as S2.
  clear Hskip.
  destruct Hk' as [->|[->|[->| ->]]]; destruct Hj' as [->|[->|[->| ->]]]; try lia;
    repeat match goal with
           | H : ?lo <= ?i < ?hi → _ |- _ =>
               first [ specialize (H ltac:(lia)); simpl in H; injection H as ->
                     | clear H ]
           end;
    simpl in Hb; injection Hb as ->;
    case_decide; unfold_increment; try lia; try reflexivity.
Qed.

Lemma increment_carry_witness :
  octet_of_prefix (cidr_network [10; 0; 0; 0] 16) = 16 / 8 ∧
  increment [10; 0; 254; 7] 2 1 = Value [10; 0; 254; 8].
Proof.
  assert (Hk2 : octet_of_prefix (cidr_network [10; 0; 0; 0] 16) = 2)
    by (vm_compute; reflexivity).
  pose proof (increment_carry [10; 0; 0; 0] [10; 0; 254; 7] 16 3 7 ltac:(lia) eq_refl)
    as H.
  cbv zeta in H. rewrite Hk2 in H. destruct H as [Hk Hinc].
  split; [exact Hk|].
  apply Hinc; [lia | | reflexivity | lia].
  intros i Hi. replace i with 2 by lia. reflexivity.
Defined.

(** C4, at the failing inputs: the carry scan runs off the end of the
    address.  From octet 3 with byte 254 it reads index 4; so does the
    509th increment of [analyze] on "10.0.0.0/23", whose first 508
    increments walk byte 2 and then byte 3 up to 254. *)
Theorem increment_reads_past_the_end (Run : Pinger → RunResult) (σ : store) :
  increment [10; 0; 0; 254] 3 1 = Panic ∧
  increment [10; 0; 254; 254] 2 1 = Panic ∧
  last (dispatched (analyze Run ParseCIDR4 σ "10.0.0.0/23")) = Some [10; 0; 254; 254] ∧
  result (analyze Run ParseCIDR4 σ "10.0.0.0/23") = Crashed.
Proof. repeat split; vm_compute; reflexivity. Qed.

(** ** The probe primitive *)

(** C8: [pingAddress] runs the pinger on the address with a count of 2 and
    a timeout of 5 seconds.  A completed run with at least one reply gives
    [true], one with no reply gives [false], both without an error; a run
    that fails gives the error, and the goroutine then leaves the pool as
    it was. *)
Theorem pingAddress_verdict (Run : Pinger → RunResult) (address : IP) :
  configure address =
    {| pinger_addr := IP_String address; Count := 2; Timeout := 5000000000 |} ∧
  (∀ replies, Run (configure address) = RunDone replies → 1 <= replies →
     pingAddress Run address = (true, None)) ∧
  (∀ replies, Run (configure address) = RunDone replies → replies <= 0 →
     pingAddress Run address = (false, None)) ∧
  (∀ err, Run (configure address) = RunError err →
     pingAddress Run address = (false, Some err) ∧
     ∀ addressPool ptr, goroutine Run addressPool ptr address = addressPool).
Proof.
  split; [reflexivity|]. unfold goroutine, pingAddress.
  repeat split; intros; rewrite H; try reflexivity.
  - destruct (Z.ltb_spec 0 replies0); [reflexivity | lia].
  - destruct (Z.ltb_spec 0 replies0); [lia | reflexivity].
Qed.

(** ** Invalid input *)

(** C7: when the string does not parse, [analyze] returns the error and no
    pool, and has handed no address to a goroutine; "not-an-address" is
    such a string. *)
Theorem analyze_invalid (Run : Pinger → RunResult) (ParseCIDR : string → option IPNet)
    (σ : store) (s : string) :
  ParseCIDR s = None →
  analyze Run ParseCIDR σ s =
    {| dispatched := []; cells := σ; result := Failed ("Invalid address: " +:+ s) |} ∧
  ParseCIDR4 "not-an-address" = None.
Proof.
  intros H. unfold analyze. rewrite H. split; reflexivity.
Qed.

Lemma analyze_invalid_witness :
  result (analyze (replies 1) ParseCIDR4 [] "not-an-address") =
    Failed "Invalid address: not-an-address".
Proof.
  destruct (analyze_invalid (replies 1) ParseCIDR4 [] "not-an-address" eq_refl) as [-> _].
  reflexivity.
Defined.

(** ** Networks of 256 addresses or fewer *)

(** With a prefix of 24 or more, [analyze] hands out exactly the usable
    hosts and returns. *)
Lemma analyze_prefix24 (Run : Pinger → RunResult) (ParseCIDR : string → option IPNet)
    (σ : store) (s : string) (ip : IP) (n : Z) :
  ParseCIDR s = Some (cidr_network ip n) →
  length ip = 4%nat → Forall (fun b => 0 <= b < 256) ip → 24 <= n <= 32 →
  ∃ a b c d,
    net_IP (cidr_network ip n) = [a; b; c; d] ∧ 0 <= d ∧ d + 2 ^ (32 - n) <= 256 ∧
    broadcast (net_IP (cidr_network ip n)) (net_Mask (cidr_network ip n))
      = [a; b; c; d + 2 ^ (32 - n) - 1] ∧
    analyze Run ParseCIDR σ s =
      {| dispatched := hosts24 a b c d n; cells := σ ++ hosts24 a b c d n;
         result := Returned (sweep Run ∅ (length σ) (hosts24 a b c d n)) |}.
Proof.
  intros Hparse Hlen Hip Hn.
  destruct (network_shape ip n Hlen Hip ltac:(lia))
    as (a & b & c & d & Hnet & (_ & _ & _ & Hd) & _ & _ & Hhi).
  destruct (Hhi ltac:(lia)) as [Hbc Hroom].
  exists a, b, c, d. repeat split; try done; try lia.
  rewrite (analyze_ipv4 Run ParseCIDR σ s ip n Hparse) by lia.
  by rewrite (enumerate_prefix24 ip n a b c d Hn Hnet) by lia.
Qed.

Lemma length_hosts24 (a b c d n : Z) :
  length (hosts24 a b c d n) = Z.to_nat (2 ^ (32 - n) - 2).
Proof. unfold hosts24. by rewrite length_map, length_seq. Qed.

(** C9: for /31 and /32 the host count is 0 and -1, with no wrap-around
    on the way; the loop is not entered, no address is handed to a
    goroutine, and [analyze] returns the empty pool. *)
Theorem analyze_degenerate (Run : Pinger → RunResult) (ParseCIDR : string → option IPNet)
    (σ : store) (s : string) (ip : IP) (n : Z) :
  ParseCIDR s = Some (cidr_network ip n) → n = 31 ∨ n = 32 →
  maximumNumberOfHosts (cidr_network ip n) = Value (if decide (n = 31) then 0 else -1) ∧
  trips (if decide (n = 31) then 0 else -1) = 0%nat ∧
  analyze Run ParseCIDR σ s = {| dispatched := []; cells := σ; result := Returned ∅ |}.
Proof.
  intros Hparse Hn.
  rewrite (analyze_ipv4 Run ParseCIDR σ s ip n Hparse) by lia.
  rewrite maximumNumberOfHosts_ipv4 by lia.
  destruct Hn as [-> | ->]; simpl; rewrite app_nil_r; repeat split; reflexivity.
Qed.

Lemma analyze_degenerate_witness :
  analyze (replies 1) ParseCIDR4 [] "10.0.0.4/31" =
    {| dispatched := []; cells := []; result := Returned ∅ |}.
Proof.
  apply (analyze_degenerate (replies 1) ParseCIDR4 [] "10.0.0.4/31" [10; 0; 0; 4] 31
           eq_refl (or_introl eq_refl)).
Defined.

(** ** Larger networks *)

(** C1, at the failing input: "10.0.0.0/23" has 9 host bits and 510
    usable hosts; [analyze] hands 508 addresses to goroutines and then
    panics in the 509th increment. *)
Theorem analyze_slash23_stops_short (Run : Pinger → RunResult) (σ : store) :
  Size ∘ net_Mask <$> ParseCIDR4 "10.0.0.0/23" = Some (23, 32) ∧
  2 ^ (32 - 23) - 2 = 510 ∧
  length (dispatched (analyze Run ParseCIDR4 σ "10.0.0.0/23")) = 508%nat ∧
  result (analyze Run ParseCIDR4 σ "10.0.0.0/23") = Crashed.
Proof. repeat split; vm_compute; reflexivity. Qed.

(** C6, at the failing input: on "10.0.0.0/23", with every probe failing,
    [analyze] does not return an empty pool: it does not return. *)
Theorem analyze_slash23_all_probes_fail (σ : store) :
  (∀ p, ∃ err, unreachable_transport p = RunError err) ∧
  is_Some (ParseCIDR4 "10.0.0.0/23") ∧
  result (analyze unreachable_transport ParseCIDR4 σ "10.0.0.0/23") = Crashed ∧
  result (analyze unreachable_transport ParseCIDR4 σ "10.0.0.0/23") ≠ Returned ∅.
Proof.
  split; [intros p; eexists; reflexivity|]. split; [vm_compute; eauto|].
  split; [vm_compute; reflexivity|]. vm_compute. discriminate.
Qed.

(** On the way there it has handed 10.0.2.0 to a goroutine, an address
    beyond the broadcast address 10.0.1.255 of the network. *)
Example analyze_slash23_leaves_the_network :
  dispatched (analyze (replies 1) ParseCIDR4 [] "10.0.0.0/23") !! 1%nat = Some [10; 0; 2; 0] ∧
  (fun n => broadcast (net_IP n) (net_Mask n)) <$> ParseCIDR4 "10.0.0.0/23"
    = Some [10; 0; 1; 255].
Proof. split; vm_compute; reflexivity. Qed.

(** Every prefix shorter than 24 ends the same way. *)
Lemma analyze_prefix23 (Run : Pinger → RunResult) (ParseCIDR : string → option IPNet)
    (σ : store) (s : string) (ip : IP) (n : Z) :
  ParseCIDR s = Some (cidr_network ip n) →
  length ip = 4%nat → Forall (fun b => 0 <= b < 256) ip → 0 <= n <= 23 →
  result (analyze Run ParseCIDR σ s) = Crashed.
Proof.
  intros Hparse Hlen Hip Hn.
  pose proof (enumerate_prefix23 ip n Hlen Hip Hn) as Hpanic.
  rewrite (analyze_ipv4 Run ParseCIDR σ s ip n Hparse) by lia. cbv zeta.
  destruct (enumerate _ _ _) as [ips final]. simpl in *. by subst final.
Qed.

(** When every probe fails, the goroutines leave the pool empty. *)
Lemma sweep_all_fail (Run : Pinger → RunResult) (pool : gmap nat bool) (ptr : nat)
    (ips : list IP) :
  (∀ p, ∃ err, Run p = RunError err) → sweep Run pool ptr ips = pool.
Proof.
  intros Hfail. revert pool ptr. induction ips as [|ip ips IH]; intros pool ptr; [done|].
  simpl. rewrite IH. unfold goroutine, pingAddress.
  by destruct (Hfail (configure ip)) as [err ->].
Qed.

(** With a prefix of 24 or more, and every probe failing, [analyze]
    returns the empty pool. *)
Lemma analyze_prefix24_all_fail (Run : Pinger → RunResult)
    (ParseCIDR : string → option IPNet) (σ : store) (s : string) (ip : IP) (n : Z) :
  ParseCIDR s = Some (cidr_network ip n) →
  length ip = 4%nat → Forall (fun b => 0 <= b < 256) ip → 24 <= n <= 32 →
  (∀ p, ∃ err, Run p = RunError err) →
  result (analyze Run ParseCIDR σ s) = Returned ∅.
Proof.
  intros Hparse Hlen Hip Hn Hfail.
  destruct (analyze_prefix24 Run ParseCIDR σ s ip n Hparse Hlen Hip Hn)
    as (a & b & c & d & _ & _ & _ & _ & ->).
  simpl. by rewrite sweep_all_fail.
Qed.

(** ** The pool *)

Lemma goroutine_lookup (Run : Pinger → RunResult) (pool : gmap nat bool)
    (ptr l : nat) (ip : IP) :
  goroutine Run pool ptr ip !! l =
    if decide (l = ptr) then
      match entry Run ip with Some used => Some used | None => pool !! l end
    else pool !! l.
Proof.
  unfold goroutine, entry. destruct (pingAddress Run ip) as [used [err|]].
  - by case_decide.
  - case_decide as Hl; [subst; apply lookup_insert_eq | by apply lookup_insert_ne].
Qed.

(** The pool after all goroutines: the entry of the [i]-th address sits
    under the [i]-th pointer from [ptr]; everything else is as before. *)
Lemma sweep_lookup (Run : Pinger → RunResult) (ips : list IP) (pool : gmap nat bool)
    (ptr l : nat) :
  sweep Run pool ptr ips !! l =
    match (if decide (ptr <= l)%nat then ips !! (l - ptr)%nat else None) with
    | Some ip => match entry Run ip with Some used => Some used | None => pool !! l end
    | None => pool !! l
    end.
Proof.
  revert pool ptr. induction ips as [|ip ips IH]; intros pool ptr; simpl.
  { by case_decide. }
  rewrite IH, goroutine_lookup.
  destruct (decide (l = ptr)) as [->|Hne].
  - rewrite decide_False by lia. rewrite decide_True by lia.
    by replace (ptr - ptr)%nat with 0%nat by lia.
  - destruct (decide (S ptr <= l)%nat) as [Hle|Hgt].
    + rewrite decide_True by lia.
      by replace (l - ptr)%nat with (S (l - S ptr)) by lia.
    + by rewrite decide_False by lia.
Qed.

Lemma hosts24_lookup (a b c d n : Z) (i : nat) (x : IP) :
  hosts24 a b c d n !! i = Some x →
  x = [a; b; c; d + (Z.of_nat i + 1)] ∧ Z.of_nat i + 1 <= 2 ^ (32 - n) - 2.
Proof.
  unfold hosts24. rewrite list_lookup_fmap. intros H.
  destruct (seq 1 (Z.to_nat (2 ^ (32 - n) - 2)) !! i) as [j|] eqn:Hj; [|discriminate].
  apply lookup_seq in Hj as [-> Hi]. injection H as <-.
  split; [do 4 f_equal; lia | lia].
Qed.

Lemma ip_value_last (a b c d d' : Z) :
  d < d' ↔ ip_value [a; b; c; d] < ip_value [a; b; c; d'].
Proof. unfold ip_value. simpl. lia. Qed.

(** C2: every key of the pool [analyze] returns points to an address
    strictly between the network address and the broadcast address of the
    parsed prefix; and no address handed to a goroutine, in a call that
    returns or not, is the network address or the broadcast address. *)
Theorem analyze_probes_inside (Run : Pinger → RunResult)
    (ParseCIDR : string → option IPNet) (σ : store) (s : string) (ip : IP) (n : Z) :
  ParseCIDR s = Some (cidr_network ip n) →
  length ip = 4%nat → Forall (fun b => 0 <= b < 256) ip → 0 <= n <= 32 →
  let network := net_IP (cidr_network ip n) in
  let bcast := broadcast network (net_Mask (cidr_network ip n)) in
  (∀ pool ptr used,
     result (analyze Run ParseCIDR σ s) = Returned pool → pool !! ptr = Some used →
     ∃ x, cells (analyze Run ParseCIDR σ s) !! ptr = Some x ∧
          ip_value network < ip_value x < ip_value bcast) ∧
  (∀ x, x ∈ dispatched (analyze Run ParseCIDR σ s) → x ≠ network ∧ x ≠ bcast).
Proof.
  intros Hparse Hlen Hip Hn network bcast. subst network bcast.
  destruct (Z.le_gt_cases 24 n) as [Hhi|Hlo].
  - destruct (analyze_prefix24 Run ParseCIDR σ s ip n Hparse Hlen Hip ltac:(lia))
      as (a & b & c & d & -> & Hd & Hroom & -> & ->).
    simpl. split.
    + intros pool ptr used [= <-]. rewrite sweep_lookup, lookup_empty.
      case_decide as Hptr; [|done].
      destruct (hosts24 a b c d n !! (ptr - length σ)%nat) as [x|] eqn:Hx; [|done].
      intros _. exists x. split.
      { rewrite lookup_app_r by lia. done. }
      apply hosts24_lookup in Hx as [-> Hi].
      split; apply ip_value_last; lia.
    + intros x Hx. apply list_elem_of_lookup in Hx as [i Hx].
      apply hosts24_lookup in Hx as [-> Hi].
      split; intros [=]; lia.
  - rewrite (analyze_ipv4 Run ParseCIDR σ s ip n Hparse) by lia. cbv zeta.
    pose proof (enumerate_prefix23 ip n Hlen Hip ltac:(lia)) as Hpanic.
    destruct (network_shape ip n Hlen Hip ltac:(lia))
      as (a & b & c & d & Hnet & _ & Hb & Hbc & _).
    destruct (Hbc ltac:(lia)) as (e & f & g & ->). specialize (Hb ltac:(lia)).
    destruct (prefix23_needs_more_room n ltac:(lia)) as [_ Hk].
    pose proof (enumerate_room (Z.to_nat (2 ^ (32 - n) - 2)) (Z.to_nat (n / 8)) [a; b; c; d]
                  eq_refl ltac:(lia) Hb) as [Hall _].
    rewrite Z2Nat.id in Hall by lia. rewrite Hnet in *.
    destruct (enumerate _ _ _) as [ips final]. simpl in *. subst final. split; [done|].
    intros x Hx. apply list_elem_of_lookup in Hx as [i Hx].
    destruct (Hall i x Hx) as (Hlx & _ & Hbx & Hsx). split.
    + intros ->. lia.
    + intros ->. unfold below_255 in Hbx.
      assert (Hlast : Forall (fun x => 0 <= x <= 254) [255]).
      { replace [255] with (drop 3 [e; f; g; 255]) by done.
        replace 3%nat with (Z.to_nat (n / 8) + (3 - Z.to_nat (n / 8)))%nat by lia.
        rewrite <- drop_drop. by apply Forall_drop. }
      apply Forall_cons in Hlast as [? _]. lia.
Qed.

Lemma analyze_probes_inside_witness :
  ∃ x, cells (analyze (replies 1) ParseCIDR4 [] "10.0.0.0/30") !! 0%nat = Some x ∧
       ip_value [10; 0; 0; 0] < ip_value x < ip_value [10; 0; 0; 3].
Proof.
  destruct (analyze_probes_inside (replies 1) ParseCIDR4 [] "10.0.0.0/30" [10; 0; 0; 0] 30
              eq_refl eq_refl) as [Hkeys _].
  - repeat first [apply Forall_cons_2 | apply Forall_nil_2]; lia.
  - lia.
  - apply (Hkeys (<[0%nat := true]> (<[1%nat := true]> ∅)) 0%nat true).
    + vm_compute. reflexivity.
    + reflexivity.
Defined.

(** C5, as stated, at a concrete input: the caller holds 10.0.0.1 in a
    variable of its own (cell 0); after [analyze] on "10.0.0.0/30" with
    every host answering, cell 1 holds 10.0.0.1 as well and is a key of the
    pool, while the caller's pointer to the same address is not. *)
Lemma pool_not_keyed_by_value :
  let r := analyze (replies 1) ParseCIDR4 [[10; 0; 0; 1]] "10.0.0.0/30" in
  ∃ pool, result r = Returned pool ∧
          cells r !! 0%nat = Some [10; 0; 0; 1] ∧ cells r !! 1%nat = Some [10; 0; 0; 1] ∧
          pool !! 0%nat = None ∧ pool !! 1%nat = Some true ∧
          ¬ keyed_by_value (cells r) pool.
Proof.
  exists (<[1%nat := true]> (<[2%nat := true]> ∅)).
  split; [vm_compute; reflexivity|].
  do 4 (split; [reflexivity|]).
  intros Hkey.
  specialize (Hkey 0%nat 1%nat [10; 0; 0; 1] eq_refl eq_refl).
  vm_compute in Hkey. discriminate.
Qed.

Lemma NoDup_hosts24 (a b c d n : Z) : NoDup (hosts24 a b c d n).
Proof.
  apply NoDup_alt. intros i j x Hi Hj.
  apply hosts24_lookup in Hi as [-> _]. apply hosts24_lookup in Hj as [[=] _]. lia.
Qed.

(** C5, amended: the keys of the returned pool are pointers to the
    goroutines' own variables, the cells this call added to the store, one
    per address handed out; the addresses handed out are distinct; the
    [i]-th address has its entry under the [i]-th new pointer when its
    probe succeeded and has none when it failed; and the pool has no other
    key. *)
Theorem analyze_pool_keys (Run : Pinger → RunResult)
    (ParseCIDR : string → option IPNet) (σ : store) (s : string) (ip : IP) (n : Z)
    (pool : gmap nat bool) :
  ParseCIDR s = Some (cidr_network ip n) →
  length ip = 4%nat → Forall (fun b => 0 <= b < 256) ip → 0 <= n <= 32 →
  result (analyze Run ParseCIDR σ s) = Returned pool →
  let r := analyze Run ParseCIDR σ s in
  NoDup (dispatched r) ∧
  cells r = σ ++ dispatched r ∧
  (∀ i x, dispatched r !! i = Some x →
     cells r !! (length σ + i)%nat = Some x ∧
     pool !! (length σ + i)%nat = entry Run x) ∧
  (∀ ptr, is_Some (pool !! ptr) →
     (length σ <= ptr < length σ + length (dispatched r))%nat).
Proof.
  intros Hparse Hlen Hip Hn Hret r. subst r.
  destruct (Z.le_gt_cases 24 n) as [Hhi|Hlo].
  2: { by rewrite (analyze_prefix23 Run ParseCIDR σ s ip n Hparse Hlen Hip) in Hret by lia. }
  destruct (analyze_prefix24 Run ParseCIDR σ s ip n Hparse Hlen Hip ltac:(lia))
    as (a & b & c & d & _ & _ & _ & _ & Heq).
  rewrite Heq in *. simpl in *. injection Hret as <-.
  split; [apply NoDup_hosts24|]. split; [done|]. split.
  - intros i x Hx. split.
    + rewrite lookup_app_r by lia. by replace (length σ + i - length σ)%nat with i by lia.
    + rewrite sweep_lookup, lookup_empty, decide_True by lia.
      replace (length σ + i - length σ)%nat with i by lia. rewrite Hx.
      by destruct (entry Run x).
  - intros ptr [used Hptr]. rewrite sweep_lookup, lookup_empty in Hptr.
    case_decide; [|done].
    destruct (hosts24 a b c d n !! (ptr - length σ)%nat) eqn:Hx; [|done].
    apply lookup_lt_Some in Hx. lia.
Qed.

Lemma analyze_pool_keys_witness :
  let r := analyze (replies 1) ParseCIDR4 [[10; 0; 0; 1]] "10.0.0.0/30" in
  NoDup (dispatched r) ∧ cells r = [[10; 0; 0; 1]] ++ dispatched r.
Proof.
  destruct (analyze_pool_keys (replies 1) ParseCIDR4 [[10; 0; 0; 1]] "10.0.0.0/30"
              [10; 0; 0; 0] 30 (<[1%nat := true]> (<[2%nat := true]> ∅)) eq_refl eq_refl)
    as (Hnd & Hcells & _).
  - repeat first [apply Forall_cons_2 | apply Forall_nil_2]; lia.
  - lia.
  - vm_compute. reflexivity.
  - split; [exact Hnd | exact Hcells].
Defined.

(** ** Every schedule *)

Lemma tally_nonneg (P : Sched.task → bool) (l : list Sched.task) : 0 <= tally P l.
Proof. induction l as [|k l IH]; simpl; [lia|]. destruct (P k); lia. Qed.

Lemma tally_app (P : Sched.task → bool) (l1 l2 : list Sched.task) :
  tally P (l1 ++ l2) = tally P l1 + tally P l2.
Proof. induction l1 as [|k l1 IH]; simpl; [lia|]. rewrite IH. lia. Qed.

Lemma tally_alter (P : Sched.task → bool) (f : Sched.task → Sched.task)
    (l : list Sched.task) (t : nat) (k : Sched.task) :
  l !! t = Some k →
  tally P (alter f t l) = tally P l - (if P k then 1 else 0) + (if P (f k) then 1 else 0).
Proof.
  revert t. induction l as [|k' l IH]; intros [|t] H; simpl in *; try discriminate.
  - injection H as ->. lia.
  - pose proof (IH t H) as E. unfold alter in E. lia.
Qed.

Lemma tally_zero (P : Sched.task → bool) (l : list Sched.task) (t : nat) (k : Sched.task) :
  tally P l = 0 → l !! t = Some k → P k = false.
Proof.
  revert t. induction l as [|k' l IH]; intros [|t] Hz H; simpl in *; try discriminate.
  - injection H as ->. pose proof (tally_nonneg P l). destruct (P k); [lia|done].
  - apply (IH t); [|done]. pose proof (tally_nonneg P l). destruct (P k'); lia.
Qed.

Lemma tally_pos (P : Sched.task → bool) (l : list Sched.task) (t : nat) (k : Sched.task) :
  l !! t = Some k → P k = true → 1 <= tally P l.
Proof.
  intros H HP. destruct (Z.le_gt_cases 1 (tally P l)) as [|Hlt]; [done|].
  pose proof (tally_nonneg P l). assert (Hz : tally P l = 0) by lia.
  by rewrite (tally_zero P l t k Hz H) in HP.
Qed.

Lemma tally_one (P : Sched.task → bool) (l : list Sched.task) (t1 t2 : nat)
    (k1 k2 : Sched.task) :
  tally P l <= 1 → l !! t1 = Some k1 → P k1 = true → l !! t2 = Some k2 → P k2 = true →
  t1 = t2.
Proof.
  revert t1 t2. induction l as [|k l IH]; intros t1 t2 Hle H1 P1 H2 P2; [done|].
  pose proof (tally_nonneg P l) as Hpos. simpl in Hle.
  destruct t1 as [|t1], t2 as [|t2]; simpl in *; [done| | |].
  - injection H1 as ->. rewrite P1 in Hle.
    assert (Hz : tally P l = 0) by lia.
    by rewrite (tally_zero P l t2 k2 Hz H2) in P2.
  - injection H2 as ->. rewrite P2 in Hle.
    assert (Hz : tally P l = 0) by lia.
    by rewrite (tally_zero P l t1 k1 Hz H1) in P1.
  - f_equal. apply IH; try done. destruct (P k); lia.
Qed.

Lemma int_wrap_range (z : Z) : - 2 ^ 63 <= int_wrap z < 2 ^ 63.
Proof.
  unfold int_wrap.
  change (2 ^ 63) with 9223372036854775808. change (2 ^ 64) with 18446744073709551616.
  pose proof (Z.mod_pos_bound (z + 9223372036854775808) 18446744073709551616). lia.
Qed.

(** One more round of the loop after [m] rounds. *)
Lemma enumerate_snoc (m : nat) (k : Z) (address : IP) (ips : list IP) (address' : IP) :
  enumerate m k address = (ips, Value address') →
  enumerate (S m) k address =
    match increment address' k 1 with
    | Panic => (ips, Panic)
    | Value address'' => (ips ++ [address''], Value address'')
    end.
Proof.
  revert address ips. induction m as [|m IH]; intros address ips H.
  { simpl in H. injection H as <- <-. simpl. by destruct (increment address k 1). }
  simpl in H. destruct (increment address k 1) as [a1|] eqn:Hinc; [|discriminate].
  destruct (enumerate m k a1) as [rest final] eqn:Hrest.
  injection H as <- ->.
  change (enumerate (S (S m)) k address) with
    (match increment address k 1 with
     | Panic => ([], Panic)
     | Value a => let '(rest, final) := enumerate (S m) k a in (a :: rest, final)
     end).
  rewrite Hinc, (IH a1 rest Hrest).
  by destruct (increment address' k 1).
Qed.

Lemma set_pc_lookup (s : Sched.state) (t t' : nat) (p : Sched.pc) :
  Sched.set_pc t p s !! t' =
    if decide (t' = t) then
      (fun k => {| Sched.task_ip := Sched.task_ip k; Sched.task_ptr := Sched.task_ptr k;
                   Sched.task_pc := p |}) <$> Sched.tasks s !! t
    else Sched.tasks s !! t'.
Proof.
  unfold Sched.set_pc. rewrite list_lookup_alter.
  repeat case_decide; subst; done.
Qed.

Lemma set_pc_ips (s : Sched.state) (t : nat) (p : Sched.pc) :
  map Sched.task_ip (Sched.set_pc t p s) = map Sched.task_ip (Sched.tasks s).
Proof.
  unfold Sched.set_pc. generalize (Sched.tasks s). clear s. intros l. revert t.
  induction l as [|k l IH]; intros [|t]; simpl; try done. f_equal. apply IH.
Qed.

Lemma set_pc_length (s : Sched.state) (t : nat) (p : Sched.pc) :
  length (Sched.set_pc t p s) = length (Sched.tasks s).
Proof. unfold Sched.set_pc. apply length_alter. Qed.

Lemma set_pc_tally (P : Sched.task → bool) (s : Sched.state) (t : nat) (p : Sched.pc)
    (k : Sched.task) :
  Sched.tasks s !! t = Some k →
  tally P (Sched.set_pc t p s) =
    tally P (Sched.tasks s) - (if P k then 1 else 0) +
    (if P {| Sched.task_ip := Sched.task_ip k; Sched.task_ptr := Sched.task_ptr k;
             Sched.task_pc := p |} then 1 else 0).
Proof. intros H. unfold Sched.set_pc. by rewrite (tally_alter P _ _ t k H). Qed.

(** A move of goroutine [t] changes [pool_of] at its own pointer only, and
    there only when it goes past its write. *)
Lemma set_pc_pool_of (Run : Pinger → RunResult) (σ : store) (s : Sched.state)
    (t : nat) (p : Sched.pc) (k : Sched.task) (l : nat) :
  Sched.tasks s !! t = Some k →
  pool_of Run σ (Sched.set_pc t p s) l =
    if decide (l = length σ + t)%nat then
      if past_store {| Sched.task_ip := Sched.task_ip k; Sched.task_ptr := Sched.task_ptr k;
                       Sched.task_pc := p |}
      then entry Run (Sched.task_ip k) else None
    else pool_of Run σ (Sched.tasks s) l.
Proof.
  intros H. unfold pool_of. destruct (decide (l = length σ + t)%nat) as [->|Hl].
  - rewrite decide_True by lia.
    replace (length σ + t - length σ)%nat with t by lia.
    rewrite set_pc_lookup, decide_True by done. by rewrite H.
  - destruct (decide (length σ <= l)%nat); [|done].
    rewrite set_pc_lookup, decide_False by lia. done.
Qed.

Section Invariant.

Variable Run : Pinger → RunResult.
Variables (bound lastOctet : Z) (σ : store) (address : IP).
Hypothesis bound_is_int : bound < 2 ^ 63.

Local Abbreviation inv := (invariant Run bound lastOctet σ address).

Lemma invariant_init (network : IPNet) :
  net_IP network = address → inv (Sched.init σ network).
Proof.
  intros <-. split; simpl; try done.
  - by rewrite app_nil_r.
  - split; [done | by left].
  - intros l. rewrite lookup_empty. unfold pool_of. by case_decide.
Qed.

Lemma pool_of_snoc (tasks : list Sched.task) (a : IP) (ptr l : nat) :
  pool_of Run σ (tasks ++ [{| Sched.task_ip := a; Sched.task_ptr := ptr;
                              Sched.task_pc := Sched.AtPing |}]) l
    = pool_of Run σ tasks l.
Proof.
  unfold pool_of. case_decide; [|done].
  destruct (decide (l - length σ < length tasks)%nat) as [Hlt|Hge].
  - by rewrite lookup_app_l.
  - rewrite lookup_app_r by lia. rewrite (lookup_ge_None_2 tasks) by lia.
    by destruct (l - length σ - length tasks)%nat as [|[|]].
Qed.

Lemma invariant_step_main (s s' : Sched.state) :
  inv s → Sched.step_main bound lastOctet s = Some s' → inv s'.
Proof.
  intros [Hheap Hptr Henum Hloop Hwg Hmu Hpc Hpool]. unfold Sched.step_main.
  destruct (Sched.main s) as [i| | |] eqn:Hmain; try discriminate.
  - destruct Hloop as [-> Hsofar].
    destruct (Z.ltb_spec (Z.of_nat (length (Sched.tasks s)) + 1) bound) as [Hlt|Hge].
    + pose proof (enumerate_snoc _ _ _ _ _ Henum) as Hnext.
      destruct (increment (Sched.network_IP s) lastOctet 1) as [a'|] eqn:Hinc;
        intros [= <-]; split; simpl; try done; try lia.
      * by rewrite Hheap, map_app, app_assoc.
      * intros t k Hk. destruct (decide (t < length (Sched.tasks s))%nat) as [Ht|Ht].
        { rewrite lookup_app_l in Hk by done. by apply Hptr. }
        rewrite lookup_app_r in Hk by lia.
        destruct (t - length (Sched.tasks s))%nat as [|[|]] eqn:Hd; try discriminate.
        injection Hk as <-. simpl. rewrite Hheap, length_app, length_map. lia.
      * rewrite length_app, map_app. simpl.
        by replace (length (Sched.tasks s) + 1)%nat with (S (length (Sched.tasks s))) by lia.
      * rewrite length_app. simpl. rewrite int_wrap_small.
        { split; [lia|]. right. lia. }
        change (2 ^ 63) with 9223372036854775808 in *. lia.
      * rewrite tally_app. simpl. lia.
      * rewrite tally_app. simpl. lia.
      * intros t k Hk. destruct (decide (t < length (Sched.tasks s))%nat) as [Ht|Ht].
        { rewrite lookup_app_l in Hk by done. by eapply Hpc. }
        rewrite lookup_app_r in Hk by lia.
        destruct (t - length (Sched.tasks s))%nat as [|[|]] eqn:Hd; try discriminate.
        by injection Hk as <-.
      * intros l. by rewrite pool_of_snoc.
    + intros [= <-]. split; simpl; try done. lia.
  - destruct (Z.eqb_spec (Sched.wg s) 0) as [Hz|]; [|discriminate].
    intros [= <-]. split; simpl; done.
Qed.

(** What one move of goroutine [t] does to the state. *)
Lemma step_task_effect (t : nat) (s s' : Sched.state) :
  Sched.step_task Run t s = Some s' →
  Sched.main s ≠ Sched.Panicked ∧
  ∃ k p,
    Sched.tasks s !! t = Some k ∧
    Sched.main s' = Sched.main s ∧ Sched.network_IP s' = Sched.network_IP s ∧
    Sched.heap s' = Sched.heap s ∧ Sched.tasks s' = Sched.set_pc t p s ∧
    match Sched.task_pc k with
    | Sched.AtPing =>
        p = match entry Run (Sched.task_ip k) with
            | Some used => Sched.AtLock used
            | None => Sched.AtDone
            end ∧
        Sched.wg s' = Sched.wg s ∧ Sched.mu s' = Sched.mu s ∧
        Sched.addressPool s' = Sched.addressPool s
    | Sched.AtLock used =>
        p = Sched.AtStore used ∧ Sched.mu s = false ∧ Sched.mu s' = true ∧
        Sched.wg s' = Sched.wg s ∧ Sched.addressPool s' = Sched.addressPool s
    | Sched.AtStore used =>
        p = Sched.AtUnlock ∧ Sched.wg s' = Sched.wg s ∧ Sched.mu s' = Sched.mu s ∧
        Sched.addressPool s' = <[Sched.task_ptr k := used]> (Sched.addressPool s)
    | Sched.AtUnlock =>
        p = Sched.AtDone ∧ Sched.wg s' = Sched.wg s ∧ Sched.mu s' = false ∧
        Sched.addressPool s' = Sched.addressPool s
    | Sched.AtDone =>
        p = Sched.Exited ∧ Sched.wg s' = Sched.wg s - 1 ∧ Sched.mu s' = Sched.mu s ∧
        Sched.addressPool s' = Sched.addressPool s
    | Sched.Exited => False
    end.
Proof.
  unfold Sched.step_task. intros H.
  assert (Hmain : Sched.main s ≠ Sched.Panicked).
  { intros Hm. by rewrite Hm in H. }
  split; [done|].
  destruct (Sched.tasks s !! t) as [k|] eqn:Hk; [|by destruct (Sched.main s)].
  exists k. unfold entry.
  destruct (Sched.main s) eqn:Hm; try done; simpl in H;
    destruct (Sched.task_pc k) as [|used|used| | |]; try discriminate;
    try (destruct (Sched.mu s) eqn:Hmu; [discriminate|]);
    injection H as <-; eexists; repeat split; simpl;
    by destruct (pingAddress Run (Sched.task_ip k)) as [used' [err|]].
Qed.

Lemma invariant_step_task (t : nat) (s s' : Sched.state) :
  inv s → Sched.step_task Run t s = Some s' → inv s'.
Proof.
  intros [Hheap Hptr Henum Hloop Hwg Hmu Hpc Hpool] Hstep.
  destruct (step_task_effect t s s' Hstep)
    as (Hnp & k & p & Hk & Hmain & Hnet & Hheap' & Htasks & Hcase).
  assert (Hnr : Sched.main s ≠ Sched.AtReturn).
  { intros Hm. rewrite Hm in Hloop. destruct Hloop as [_ Hz]. rewrite Hwg in Hz.
    pose proof (tally_zero Sched.running _ t k Hz Hk) as Hrun.
    unfold Sched.running in Hrun. by destruct (Sched.task_pc k). }
  pose proof (tally_nonneg Sched.holds_lock (Sched.tasks s)) as Hlocks.
  pose proof (set_pc_tally Sched.holds_lock s t p k Hk) as Tmu.
  pose proof (set_pc_tally Sched.running s t p k Hk) as Twg.
  pose proof (Hpc t k Hk) as Hagree.
  pose proof (Hptr t k Hk) as Hptr_k.
  split.
  - by rewrite Hheap', Htasks, set_pc_ips.
  - intros t' k'. rewrite Htasks, set_pc_lookup. case_decide as Ht.
    + subst t'. rewrite Hk. intros [= <-]. simpl. by apply Hptr.
    + apply Hptr.
  - rewrite Htasks, set_pc_length, set_pc_ips, Hnet. exact Henum.
  - rewrite Hmain, Htasks, set_pc_length, Hnet.
    by destruct (Sched.main s).
  - rewrite Htasks, Twg. unfold Sched.running at 2 3. simpl.
    destruct (Sched.task_pc k); try done;
      try (destruct Hcase as (-> & ?)); try (destruct (entry Run (Sched.task_ip k)));
      intuition lia.
  - rewrite Htasks, Tmu. unfold Sched.holds_lock at 2 3. simpl.
    pose proof (tally_pos Sched.holds_lock _ t k Hk) as Hheld.
    unfold Sched.holds_lock in Hheld at 1.
    destruct (Sched.task_pc k); try done;
      try (destruct Hcase as (-> & ?)); try (destruct (entry Run (Sched.task_ip k)));
      destruct (Sched.mu s), (Sched.mu s'); intuition (try discriminate; lia).
  - intros t' k'. rewrite Htasks, set_pc_lookup. case_decide as Ht; [|apply Hpc].
    subst t'. rewrite Hk. intros [= <-]. unfold pc_agrees in *. simpl.
    destruct (Sched.task_pc k); try done;
      try (destruct Hcase as (-> & ?)); try (destruct (entry Run (Sched.task_ip k)));
      eauto.
  - intros l. rewrite Htasks, (set_pc_pool_of Run σ s t p k l Hk).
    unfold past_store at 1. simpl.
    assert (Hold : pool_of Run σ (Sched.tasks s) (length σ + t)%nat =
                   if past_store k then entry Run (Sched.task_ip k) else None).
    { unfold pool_of. rewrite decide_True by lia.
      replace (length σ + t - length σ)%nat with t by lia. by rewrite Hk. }
    unfold past_store in Hold. unfold pc_agrees in Hagree.
    destruct (Sched.task_pc k) as [|used|used| | |]; try done.
    + destruct Hcase as (-> & _ & _ & ->). case_decide as Hl; [|apply Hpool].
      subst l. rewrite Hpool, Hold. by destruct (entry Run (Sched.task_ip k)).
    + destruct Hcase as (-> & _ & _ & _ & ->). case_decide as Hl; [|apply Hpool].
      subst l. by rewrite Hpool, Hold.
    + destruct Hcase as (-> & _ & _ & ->). rewrite Hptr_k. case_decide as Hl.
      * subst l. by rewrite lookup_insert_eq.
      * rewrite lookup_insert_ne by done. apply Hpool.
    + destruct Hcase as (-> & _ & _ & ->). case_decide as Hl; [|apply Hpool].
      subst l. by rewrite Hpool, Hold.
    + destruct Hcase as (-> & _ & _ & ->). case_decide as Hl; [|apply Hpool].
      subst l. by rewrite Hpool, Hold.
Qed.

Lemma invariant_exec (sched : list Sched.action) (s s' : Sched.state) :
  inv s → Sched.exec_schedule Run bound lastOctet sched s = Some s' → inv s'.
Proof.
  revert s. induction sched as [|a sched IH]; intros s Hinv; simpl.
  { by intros [= <-]. }
  destruct (Sched.step Run bound lastOctet a s) as [s1|] eqn:Hstep; [|discriminate].
  simpl. apply IH. destruct a as [|t]; simpl in Hstep.
  - by eapply invariant_step_main.
  - by eapply invariant_step_task.
Qed.

Lemma tally_exists (P : Sched.task → bool) (l : list Sched.task) :
  0 < tally P l → ∃ t k, l !! t = Some k ∧ P k = true.
Proof.
  induction l as [|k l IH]; simpl; [lia|]. intros H.
  destruct (P k) eqn:HP.
  - by exists 0%nat, k.
  - destruct (IH ltac:(lia)) as (t & k' & Hk & HP'). by exists (S t), k'.
Qed.

(** No deadlock: until the call is over, the caller or some goroutine can
    move. *)
Lemma invariant_progress (s : Sched.state) :
  inv s → ¬ ended s → ∃ a s', Sched.step Run bound lastOctet a s = Some s'.
Proof.
  intros [Hheap Hptr Henum Hloop Hwg Hmu Hpc Hpool] Hlive. unfold ended in Hlive.
  destruct (Sched.main s) as [i| | |] eqn:Hmain; [| |tauto|tauto].
  - exists Sched.Main. simpl. unfold Sched.step_main. rewrite Hmain.
    destruct (i <? bound); [|by eexists].
    destruct (increment (Sched.network_IP s) lastOctet 1); by eexists.
  - destruct (Z.eqb_spec (Sched.wg s) 0) as [Hz|Hnz].
    { exists Sched.Main. simpl. unfold Sched.step_main. rewrite Hmain.
      rewrite (proj2 (Z.eqb_eq _ _) Hz). by eexists. }
    pose proof (tally_nonneg Sched.running (Sched.tasks s)) as Hpos.
    destruct (Sched.mu s) eqn:Hlock.
    + destruct (tally_exists Sched.holds_lock (Sched.tasks s) ltac:(lia))
        as (t & k & Hk & Hheld).
      exists (Sched.Go t). simpl. unfold Sched.step_task. rewrite Hmain, Hk. simpl.
      unfold Sched.holds_lock in Hheld.
      destruct (Sched.task_pc k); try discriminate; by eexists.
    + destruct (tally_exists Sched.running (Sched.tasks s) ltac:(lia))
        as (t & k & Hk & Hrun).
      exists (Sched.Go t). simpl. unfold Sched.step_task. rewrite Hmain, Hk, Hlock. simpl.
      unfold Sched.running in Hrun.
      destruct (Sched.task_pc k); try discriminate; by eexists.
Qed.

Lemma work_nonneg (l : list Sched.task) : 0 <= work l.
Proof.
  induction l as [|k l IH]; simpl; [lia|].
  unfold steps_left. destruct (Sched.task_pc k); lia.
Qed.

Lemma work_app (l1 l2 : list Sched.task) : work (l1 ++ l2) = work l1 + work l2.
Proof. induction l1 as [|k l1 IH]; simpl; lia. Qed.

Lemma work_set_pc (s : Sched.state) (t : nat) (p : Sched.pc) (k : Sched.task) :
  Sched.tasks s !! t = Some k →
  work (Sched.set_pc t p s) =
    work (Sched.tasks s) - steps_left k +
    steps_left {| Sched.task_ip := Sched.task_ip k; Sched.task_ptr := Sched.task_ptr k;
                  Sched.task_pc := p |}.
Proof.
  unfold Sched.set_pc. generalize (Sched.tasks s). intros l. revert t.
  induction l as [|k' l IH]; intros [|t] H; simpl in *; try discriminate.
  - injection H as ->. lia.
  - pose proof (IH t H) as E. unfold alter in E. lia.
Qed.

(** Every step uses up some of the bound. *)
Lemma step_uses_bound (a : Sched.action) (s s' : Sched.state) :
  inv s → Sched.step Run bound lastOctet a s = Some s' →
  0 <= steps_bound bound s' < steps_bound bound s.
Proof.
  intros Hinv Hstep. unfold steps_bound.
  pose proof (work_nonneg (Sched.tasks s')) as Hw'.
  destruct a as [|t]; simpl in Hstep.
  - destruct Hinv as [_ _ _ Hloop _ _ _ _]. unfold Sched.step_main in Hstep.
    destruct (Sched.main s) as [i| | |] eqn:Hmain; try discriminate.
    + destruct Hloop as [-> _].
      destruct (Z.ltb_spec (Z.of_nat (length (Sched.tasks s)) + 1) bound) as [Hlt|Hge].
      * destruct (increment (Sched.network_IP s) lastOctet 1) as [a'|];
          injection Hstep as <-; simpl in *; [|lia].
        rewrite work_app in *. simpl in *. unfold steps_left in *. simpl in *.
        rewrite int_wrap_small by (change (2 ^ 63) with 9223372036854775808 in *; lia).
        lia.
      * injection Hstep as <-. simpl in *. lia.
    + destruct (Sched.wg s =? 0); [|discriminate]. injection Hstep as <-. simpl in *. lia.
  - destruct (step_task_effect t s s' Hstep)
      as (_ & k & p & Hk & Hmain & _ & _ & Htasks & Hcase).
    rewrite Hmain, Htasks in *. rewrite (work_set_pc s t p k Hk) in *.
    assert (0 <= match Sched.main s with
                 | Sched.Looping i => 6 * Z.max 0 (bound - i) + 2
                 | Sched.AtWait => 1
                 | _ => 0
                 end) by (destruct (Sched.main s); lia).
    unfold steps_left in *. simpl in *.
    destruct (Sched.task_pc k); try done; destruct Hcase as (-> & _);
      try destruct (entry Run (Sched.task_ip k)); lia.
Qed.

(** No schedule is longer than the bound of the state it starts in. *)
Lemma schedule_length (sched : list Sched.action) (s s' : Sched.state) :
  inv s → Sched.exec_schedule Run bound lastOctet sched s = Some s' →
  Z.of_nat (length sched) + steps_bound bound s' <= steps_bound bound s.
Proof.
  revert s. induction sched as [|a sched IH]; intros s Hinv; simpl.
  { intros [= <-]. lia. }
  destruct (Sched.step Run bound lastOctet a s) as [s1|] eqn:Hstep; [|discriminate].
  simpl. intros Hrest.
  pose proof (step_uses_bound a s s1 Hinv Hstep).
  assert (Hinv1 : inv s1).
  { destruct a; simpl in Hstep;
      [by eapply invariant_step_main | by eapply invariant_step_task]. }
  specialize (IH s1 Hinv1 Hrest). lia.
Qed.

(** From every state the call can be run to its end. *)
Lemma invariant_ends (s : Sched.state) :
  inv s → ∃ sched s', Sched.exec_schedule Run bound lastOctet sched s = Some s' ∧ ended s'.
Proof.
  intros Hinv.
  assert (Hfuel : ∃ n, steps_bound bound s <= Z.of_nat n).
  { exists (Z.to_nat (steps_bound bound s)). lia. }
  destruct Hfuel as [n Hn]. revert s Hinv Hn.
  induction n as [|n IH]; intros s Hinv Hn.
  - destruct (Sched.main s) as [i| | |] eqn:Hmain;
      try (exists [], s; split; [done | unfold ended; tauto]);
      destruct (invariant_progress s Hinv) as (a & s1 & Hstep);
      try (unfold ended; rewrite Hmain; intros [|]; discriminate);
      pose proof (step_uses_bound a s s1 Hinv Hstep); lia.
  - destruct (Sched.main s) as [i| | |] eqn:Hmain;
      try (exists [], s; split; [done | unfold ended; tauto]);
      (destruct (invariant_progress s Hinv) as (a & s1 & Hstep);
       [unfold ended; rewrite Hmain; intros [|]; discriminate|]);
      pose proof (step_uses_bound a s s1 Hinv Hstep);
      (assert (Hinv1 : inv s1)
        by (destruct a; simpl in Hstep;
            [by eapply invariant_step_main | by eapply invariant_step_task]));
      destruct (IH s1 Hinv1 ltac:(lia)) as (sched & s' & Hexec & Hend);
      exists (a :: sched), s'; (split; [|done]); simpl; by rewrite Hstep.
Qed.

End Invariant.

Lemma reachable_invariant (Run : Pinger → RunResult) (σ : store) (network : IPNet)
    (maximum : Z) (s : Sched.state) :
  maximumNumberOfHosts network = Value maximum →
  Sched.reachable Run σ network s →
  invariant Run (int_wrap (maximum + 1)) (octet_of_prefix network) σ (net_IP network) s.
Proof.
  intros Hmax (maximum' & sched & Hmax' & Hexec).
  rewrite Hmax in Hmax'. injection Hmax' as <-.
  eapply invariant_exec; [apply int_wrap_range | | exact Hexec].
  by apply invariant_init.
Qed.

(** X17: under any schedule a call comes to its end, by returning or by
    panicking: from every state it can reach, it can be run on to one where
    it is over, and no schedule is longer than six steps per round of the
    loop plus two. *)
Theorem every_call_ends (Run : Pinger → RunResult) (σ : store) (network : IPNet)
    (maximum : Z) (sched : list Sched.action) (s : Sched.state) :
  maximumNumberOfHosts network = Value maximum →
  Sched.exec_schedule Run (int_wrap (maximum + 1)) (octet_of_prefix network) sched
    (Sched.init σ network) = Some s →
  Z.of_nat (length sched) <= 6 * Z.of_nat (trips maximum) + 2 ∧
  ∃ sched' s',
    Sched.exec_schedule Run (int_wrap (maximum + 1)) (octet_of_prefix network) sched' s
      = Some s' ∧ ended s'.
Proof.
  intros Hmax Hexec.
  pose proof (invariant_init Run (int_wrap (maximum + 1)) (octet_of_prefix network) σ
                (net_IP network) network eq_refl) as Hinit.
  pose proof (int_wrap_range (maximum + 1)) as [_ Hint]. split.
  - pose proof (schedule_length Run _ _ σ _ Hint sched _ s Hinit Hexec) as Hlen.
    pose proof (invariant_exec Run _ _ σ _ Hint sched _ s Hinit Hexec) as Hinv.
    assert (0 <= steps_bound (int_wrap (maximum + 1)) s).
    { unfold steps_bound. pose proof (work_nonneg (Sched.tasks s)).
      destruct (Sched.main s); lia. }
    unfold steps_bound in Hlen at 2. simpl in Hlen. unfold trips. lia.
  - eapply invariant_ends; [exact Hint|].
    eapply invariant_exec; [exact Hint | exact Hinit | exact Hexec].
Qed.

(** Once an increment has panicked, more rounds change nothing. *)
Lemma enumerate_panic (n n' : nat) (k : Z) (address : IP) (ips : list IP) :
  enumerate n k address = (ips, Panic) → (n <= n')%nat →
  enumerate n' k address = (ips, Panic).
Proof.
  revert n' address ips. induction n as [|n IH]; intros n' address ips H Hle.
  { discriminate. }
  destruct n' as [|n']; [lia|]. simpl in *.
  destruct (increment address k 1) as [a|]; [|done].
  destruct (enumerate n k a) as [rest final] eqn:Hrest. injection H as <- ->.
  by rewrite (IH n' a rest Hrest) by lia.
Qed.

(** X16: whatever the schedule, a call that returns has handed out the same
    addresses and returns the same pool as [analyze] with its goroutines
    taken in order; and a call that panics does so in [analyze] too. *)
Theorem every_schedule_agrees (Run : Pinger → RunResult)
    (ParseCIDR : string → option IPNet) (σ : store) (s : string) (network : IPNet)
    (st : Sched.state) :
  ParseCIDR s = Some network → Sched.reachable Run σ network st →
  (Sched.main st = Sched.AtReturn →
     analyze Run ParseCIDR σ s =
       {| dispatched := map Sched.task_ip (Sched.tasks st); cells := Sched.heap st;
          result := Returned (Sched.addressPool st) |}) ∧
  (Sched.main st = Sched.Panicked → result (analyze Run ParseCIDR σ s) = Crashed).
Proof.
  intros Hparse Hreach. pose proof Hreach as (maximum & _ & Hmax & _).
  destruct (reachable_invariant Run σ network maximum st Hmax Hreach)
    as [Hheap Hptr Henum Hloop Hwg Hmu Hpc Hpool].
  unfold analyze. rewrite Hparse, Hmax. unfold trips. split; intros Hmain.
  - rewrite Hmain in Hloop. destruct Hloop as [Hlen Hz]. rewrite <- Hlen, Henum.
    rewrite Hheap. do 2 f_equal. apply map_eq. intros l.
    rewrite sweep_lookup, lookup_empty, Hpool. unfold pool_of.
    case_decide; [|done]. rewrite list_lookup_fmap.
    destruct (Sched.tasks st !! (l - length σ)%nat) as [k|] eqn:Hk; [|done]. simpl.
    rewrite Hwg in Hz. pose proof (tally_zero Sched.running _ _ k Hz Hk) as Hrun.
    unfold Sched.running in Hrun. unfold past_store.
    destruct (Sched.task_pc k); try discriminate.
    by destruct (entry Run (Sched.task_ip k)).
  - rewrite Hmain in Hloop. destruct Hloop as [Hlt Hpanic].
    pose proof (enumerate_snoc _ _ _ _ _ Henum) as Hnext. rewrite Hpanic in Hnext.
    by rewrite (enumerate_panic _ (Z.to_nat (int_wrap (maximum + 1) - 1)) _ _ _ Hnext) by lia.
Qed.

Lemma every_schedule_agrees_witness :
  ∃ st,
    Sched.reachable (replies 1) [] (cidr_network [10; 0; 0; 0] 30) st ∧
    Sched.main st = Sched.AtReturn ∧
    result (analyze (replies 1) ParseCIDR4 [] "10.0.0.0/30") = Returned (Sched.addressPool st).
Proof.
  pose (sched := [Sched.Main; Sched.Go 0; Sched.Main; Sched.Go 1; Sched.Go 1; Sched.Go 1;
                  Sched.Main; Sched.Go 1; Sched.Go 0; Sched.Go 1; Sched.Go 0; Sched.Go 0;
                  Sched.Go 0; Sched.Main]).
  destruct (Sched.exec_schedule (replies 1) 3 3 sched
              (Sched.init [] (cidr_network [10; 0; 0; 0] 30))) as [st|] eqn:Hst;
    [|vm_compute in Hst; discriminate].
  assert (Hreach : Sched.reachable (replies 1) [] (cidr_network [10; 0; 0; 0] 30) st).
  { exists 2, sched. split; [vm_compute; reflexivity | exact Hst]. }
  assert (Hmain : Sched.main st = Sched.AtReturn).
  { vm_compute in Hst. injection Hst as <-. reflexivity. }
  exists st. split; [exact Hreach|]. split; [exact Hmain|].
  destruct (every_schedule_agrees (replies 1) ParseCIDR4 [] "10.0.0.0/30"
              (cidr_network [10; 0; 0; 0] 30) st eq_refl Hreach) as [Hret _].
  by rewrite (Hret Hmain).
Defined.

(** ** The join *)

(** C10: in every state a call of [analyze] can reach, under any schedule:
    - there is one goroutine per address handed out so far, each with the
      copy of its address in a cell of its own;
    - the caller, while in its loop, can always take its next step,
      however many goroutines are running;
    - each goroutine probes its own address: the verdict it carries to the
      lock and to the write is the one [pingAddress] gave for that address,
      the pool has under the goroutine's pointer that verdict once the
      goroutine is past its write and nothing before, no entry when the
      probe failed, and no key that is not a goroutine's pointer;
    - the pool is only written by a goroutine that holds the mutex, the
      mutex is held exactly when some goroutine is between its [Lock] and
      its [Unlock], and at most one goroutine is;
    - the caller has returned only if the loop ran all its rounds and every
      goroutine started has run to its end, and the pool it then returns
      holds, for every goroutine, what [pingAddress] gave for its address:
      it is the pool of the goroutines run one after the other. *)
Theorem analyze_joins_all (Run : Pinger → RunResult) (σ : store) (network : IPNet)
    (maximum : Z) (s : Sched.state) :
  maximumNumberOfHosts network = Value maximum →
  Sched.reachable Run σ network s →
  let bound := int_wrap (maximum + 1) in
  let lastOctet := octet_of_prefix network in
  ((enumerate (length (Sched.tasks s)) lastOctet (net_IP network)).1
     = map Sched.task_ip (Sched.tasks s) ∧
   ∀ t k, Sched.tasks s !! t = Some k →
          Sched.task_ptr k = (length σ + t)%nat ∧
          Sched.heap s !! Sched.task_ptr k = Some (Sched.task_ip k)) ∧
  (∀ i, Sched.main s = Sched.Looping i →
        is_Some (Sched.step Run bound lastOctet Sched.Main s)) ∧
  ((∀ t k, Sched.tasks s !! t = Some k →
      (∀ used, Sched.task_pc k = Sched.AtLock used ∨ Sched.task_pc k = Sched.AtStore used →
               pingAddress Run (Sched.task_ip k) = (used, None)) ∧
      (Sched.task_pc k = Sched.AtUnlock →
         ∃ used, pingAddress Run (Sched.task_ip k) = (used, None)) ∧
      Sched.addressPool s !! Sched.task_ptr k =
        if past_store k then
          match pingAddress Run (Sched.task_ip k) with
          | (_, Some _) => None
          | (used, None) => Some used
          end
        else None) ∧
   (∀ ptr, is_Some (Sched.addressPool s !! ptr) →
           ∃ t k, Sched.tasks s !! t = Some k ∧ Sched.task_ptr k = ptr)) ∧
  ((∀ a s', Sched.step Run bound lastOctet a s = Some s' →
            Sched.addressPool s' ≠ Sched.addressPool s →
            ∃ t k, a = Sched.Go t ∧ Sched.tasks s !! t = Some k ∧
                   Sched.holds_lock k = true ∧ Sched.mu s = true) ∧
   (Sched.mu s = true ↔
      ∃ t k, Sched.tasks s !! t = Some k ∧ Sched.holds_lock k = true) ∧
   (∀ t1 t2 k1 k2,
      Sched.tasks s !! t1 = Some k1 → Sched.holds_lock k1 = true →
      Sched.tasks s !! t2 = Some k2 → Sched.holds_lock k2 = true → t1 = t2)) ∧
  (Sched.main s = Sched.AtReturn →
     length (Sched.tasks s) = trips maximum ∧ Sched.wg s = 0 ∧
     (∀ t k, Sched.tasks s !! t = Some k → Sched.task_pc k = Sched.Exited) ∧
     (∀ t k, Sched.tasks s !! t = Some k →
        Sched.addressPool s !! Sched.task_ptr k =
          match pingAddress Run (Sched.task_ip k) with
          | (_, Some _) => None
          | (used, None) => Some used
          end) ∧
     Sched.addressPool s = sweep Run ∅ (length σ) (map Sched.task_ip (Sched.tasks s))).
Proof.
  intros Hmax Hreach bound lastOctet.
  destruct (reachable_invariant Run σ network maximum s Hmax Hreach)
    as [Hheap Hptr Henum Hloop Hwg Hmu Hpc Hpool].
  fold bound lastOctet in Henum, Hloop.
  assert (Hown : ∀ t k, Sched.tasks s !! t = Some k →
            Sched.addressPool s !! Sched.task_ptr k =
              if past_store k then entry Run (Sched.task_ip k) else None).
  { intros t k Hk. rewrite Hpool, (Hptr t k Hk). unfold pool_of.
    rewrite decide_True by lia.
    replace (length σ + t - length σ)%nat with t by lia. by rewrite Hk. }
  assert (Hexited : Sched.main s = Sched.AtReturn →
            ∀ t k, Sched.tasks s !! t = Some k → Sched.task_pc k = Sched.Exited).
  { intros Hmain t k Hk. rewrite Hmain in Hloop. destruct Hloop as [_ Hz].
    rewrite Hwg in Hz. pose proof (tally_zero Sched.running _ t k Hz Hk) as Hrun.
    unfold Sched.running in Hrun. by destruct (Sched.task_pc k). }
  split; [split|split; [|split; [split|split; [split; [|split]|]]]].
  - by rewrite Henum.
  - intros t k Hk. split; [by apply Hptr|].
    rewrite (Hptr t k Hk), Hheap, lookup_app_r by lia.
    replace (length σ + t - length σ)%nat with t by lia.
    by rewrite list_lookup_fmap, Hk.
  - intros i Hmain. simpl. unfold Sched.step_main. rewrite Hmain.
    destruct (i <? bound); [|by eexists].
    destruct (increment (Sched.network_IP s) lastOctet 1); by eexists.
  - intros t k Hk. pose proof (Hpc t k Hk) as Hagree. unfold pc_agrees in Hagree.
    split; [|split].
    + intros used [Hat|Hat]; rewrite Hat in Hagree; unfold entry in Hagree;
        destruct (pingAddress Run (Sched.task_ip k)) as [used' [err|]];
        congruence.
    + intros Hat. rewrite Hat in Hagree. destruct Hagree as [used Hused].
      unfold entry in Hused.
      destruct (pingAddress Run (Sched.task_ip k)) as [used' [err|]]; [done|by eexists].
    + by rewrite (Hown t k Hk).
  - intros ptr [used Hused]. rewrite Hpool in Hused. unfold pool_of in Hused.
    case_decide as Hle; [|done].
    destruct (Sched.tasks s !! (ptr - length σ)%nat) as [k|] eqn:Hk; [|done].
    exists (ptr - length σ)%nat, k. split; [done|]. rewrite (Hptr _ k Hk). lia.
  - intros [|t] s' Hstep Hchange; simpl in Hstep.
    + exfalso. apply Hchange. unfold Sched.step_main in Hstep.
      repeat case_match; try discriminate; by injection Hstep as <-.
    + destruct (step_task_effect Run t s s' Hstep)
        as (_ & k & p & Hk & _ & _ & _ & _ & Hcase).
      exists t, k. split; [done|]. split; [done|].
      pose proof (tally_pos Sched.holds_lock _ t k Hk) as Hheld.
      unfold Sched.holds_lock in *.
      destruct (Sched.task_pc k); try (exfalso; apply Hchange; intuition congruence).
      split; [done|]. destruct (Sched.mu s); [done|]. specialize (Hheld eq_refl). lia.
  - split.
    + intros Hlocked. rewrite Hlocked in Hmu.
      destruct (tally_exists Sched.holds_lock (Sched.tasks s) ltac:(lia))
        as (t & k & Hk & Hheld).
      by exists t, k.
    + intros (t & k & Hk & Hheld).
      pose proof (tally_pos Sched.holds_lock _ t k Hk Hheld).
      destruct (Sched.mu s); [done|lia].
  - intros t1 t2 k1 k2 H1 L1 H2 L2.
    apply (tally_one Sched.holds_lock (Sched.tasks s) t1 t2 k1 k2); try done.
    rewrite Hmu. destruct (Sched.mu s); lia.
  - intros Hmain. pose proof (Hexited Hmain) as Hall.
    rewrite Hmain in Hloop. destruct Hloop as [Hlen Hz].
    split; [done|]. split; [done|]. split; [done|]. split.
    + intros t k Hk. rewrite (Hown t k Hk). unfold past_store.
      by rewrite (Hall t k Hk).
    + apply map_eq. intros l.
      rewrite sweep_lookup, lookup_empty, Hpool. unfold pool_of.
      case_decide; [|done]. rewrite list_lookup_fmap.
      destruct (Sched.tasks s !! (l - length σ)%nat) as [k|] eqn:Hk; [|done]. simpl.
      unfold past_store. rewrite (Hall _ k Hk).
      by destruct (entry Run (Sched.task_ip k)).
Qed.

Lemma analyze_joins_all_witness :
  ∃ st,
    Sched.main st = Sched.AtReturn ∧ length (Sched.tasks st) = 2%nat ∧
    (∀ t k, Sched.tasks st !! t = Some k → Sched.task_pc k = Sched.Exited) ∧
    Sched.addressPool st
      = sweep (replies 1) ∅ 1 (map Sched.task_ip (Sched.tasks st)) ∧
    map Sched.task_ip (Sched.tasks st) = [[10; 0; 0; 1]; [10; 0; 0; 2]] ∧
    Sched.addressPool st !! 1%nat = Some true ∧
    Sched.addressPool st !! 2%nat = Some true.
Proof.
  pose (sched := [Sched.Main; Sched.Go 0; Sched.Main; Sched.Go 1; Sched.Go 1; Sched.Go 1;
                  Sched.Main; Sched.Go 1; Sched.Go 0; Sched.Go 1; Sched.Go 0; Sched.Go 0;
                  Sched.Go 0; Sched.Main]).
  destruct (Sched.exec_schedule (replies 1) 3 3 sched
              (Sched.init [[10; 0; 0; 1]] (cidr_network [10; 0; 0; 0] 30))) as [st|] eqn:Hst;
    [|vm_compute in Hst; discriminate].
  assert (Hmain : Sched.main st = Sched.AtReturn).
  { vm_compute in Hst. injection Hst as <-. reflexivity. }
  destruct (analyze_joins_all (replies 1) [[10; 0; 0; 1]] (cidr_network [10; 0; 0; 0] 30)
              2 st) as ([Hips _] & _ & _ & _ & Hjoin).
  - vm_compute. reflexivity.
  - exists 2, sched. split; [vm_compute; reflexivity | exact Hst].
  - exists st. destruct (Hjoin Hmain) as (Hlen & _ & Hall & _ & Hpool).
    split; [exact Hmain|]. split; [exact Hlen|]. split; [exact Hall|].
    split; [exact Hpool|].
    assert (Hhosts : map Sched.task_ip (Sched.tasks st) = [[10; 0; 0; 1]; [10; 0; 0; 2]]).
    { rewrite <- Hips, Hlen. vm_compute. reflexivity. }
    split; [exact Hhosts|]. rewrite Hpool, Hhosts. split; reflexivity.
Defined.

(** * Further properties *)

(** ** The increment on addresses of any length *)

Lemma carry_scan_panic (rest : list Z) (i : Z) :
  carry_scan rest i = Panic ↔ Forall (fun b => b = 254) rest.
Proof.
  revert i. induction rest as [|b rest IH]; intros i; simpl.
  { split; [intros _; apply Forall_nil_2 | done]. }
  destruct (Z.eqb_spec b 254) as [->|Hne].
  - rewrite IH. split; [intros H; by apply Forall_cons_2 | intros H].
    by apply Forall_cons in H as [_ H].
  - split; [discriminate|]. intros H. by apply Forall_cons in H as [? _].
Qed.

Lemma carry_scan_value (rest : list Z) (i j : Z) :
  carry_scan rest i = Value j →
  ∃ m b, j = i + Z.of_nat m ∧ rest !! m = Some b ∧ b ≠ 254.
Proof.
  revert i. induction rest as [|b rest IH]; intros i; simpl; [discriminate|].
  destruct (Z.eqb_spec b 254) as [->|Hne].
  - intros H. destruct (IH _ H) as (m & b' & -> & Hm & Hb).
    exists (S m), b'. split; [lia|done].
  - intros [= <-]. exists 0%nat, b. split; [lia|done].
Qed.

(** X1: on an address of any length and from any octet, [increment] panics
    exactly when the octet index is negative or every byte from that octet
    to the end of the address is 254 (which includes starting at or past
    the end). *)
Theorem increment_panics_iff (address : IP) (lastOctet : Z) :
  increment address lastOctet 1 = Panic ↔
  lastOctet < 0 ∨ Forall (fun b => b = 254) (drop (Z.to_nat lastOctet) address).
Proof.
  unfold increment.
  assert (Hbody :
    (scan address lastOctet ≫= λ lastOctet', add_at address lastOctet' 1) = Panic ↔
    lastOctet < 0 ∨ Forall (fun b => b = 254) (drop (Z.to_nat lastOctet) address)).
  { unfold scan. destruct (Z.ltb_spec lastOctet 0) as [Hneg|Hpos].
    { split; [by left | done]. }
    destruct (carry_scan (drop (Z.to_nat lastOctet) address) lastOctet) as [j|] eqn:Hscan.
    - destruct (carry_scan_value _ _ _ Hscan) as (m & b & -> & Hm & Hb).
      rewrite lookup_drop in Hm.
      unfold mbind, exec_bind, add_at, index.
      destruct (Z.ltb_spec (lastOctet + Z.of_nat m) 0); [lia|].
      replace (Z.to_nat (lastOctet + Z.of_nat m)) with (Z.to_nat lastOctet + m)%nat by lia.
      unfold IP in *. rewrite Hm. simpl. split; [discriminate|].
      intros [?|Hall]; [lia|]. apply carry_scan_panic with (i := lastOctet) in Hall.
      congruence.
    - split; [|done]. intros _. right. by apply carry_scan_panic in Hscan. }
  destruct (Z.eqb_spec lastOctet 3) as [->|Hne]; [|exact Hbody].
  unfold index at 1. simpl. change (Z.to_nat 3) with 3%nat in *.
  destruct (address !! 3%nat) as [b|] eqn:Hb; simpl.
  - destruct (Z.eqb_spec b 255) as [->|Hne]; [|exact Hbody].
    split; [discriminate|]. intros [?|Hall]; [lia|].
    rewrite Forall_lookup in Hall. specialize (Hall 0%nat 255).
    rewrite lookup_drop, Nat.add_0_r in Hall. specialize (Hall Hb). lia.
  - split; [|done]. intros _. right.
    rewrite drop_ge; [apply Forall_nil_2|]. by apply lookup_ge_None.
Qed.

(** ** The order of the enumeration *)

Lemma increment_increases (k : nat) (address address' : IP) :
  length address = 4%nat → (k <= 3)%nat → below_255 k address →
  increment address (Z.of_nat k) 1 = Value address' →
  ip_value address < ip_value address'.
Proof.
  intros Hlen Hk Hb. unfold below_255 in Hb.
  destruct address as [|a [|b [|c [|d [|]]]]]; try discriminate.
  destruct k as [|[|[|[|]]]]; try lia; simpl in Hb; split_Forall;
    unfold_increment; try discriminate; try lia;
    intros [= <-]; rewrite ?Z.mod_small by lia; unfold ip_value; simpl; lia.
Qed.

Lemma enumerate_increases (n k : nat) (address : IP) :
  length address = 4%nat → (k <= 3)%nat → below_255 k address →
  (∀ y, (enumerate n (Z.of_nat k) address).1 !! 0%nat = Some y →
        ip_value address < ip_value y) ∧
  (∀ i x y, (enumerate n (Z.of_nat k) address).1 !! i = Some x →
            (enumerate n (Z.of_nat k) address).1 !! S i = Some y →
            ip_value x < ip_value y).
Proof.
  revert address. induction n as [|n IH]; intros address Hlen Hk Hb.
  { simpl. split; intros *; rewrite ?lookup_nil; done. }
  simpl. pose proof (increment_uses_room k address Hlen Hk Hb) as Hstep.
  pose proof (increment_increases k address) as Hup.
  destruct (increment address (Z.of_nat k) 1) as [address'|]; simpl.
  2: { split; intros *; rewrite ?lookup_nil; done. }
  destruct Hstep as (Hlen' & _ & Hb' & _).
  destruct (IH address' Hlen' Hk Hb') as [Hfirst Hnext].
  destruct (enumerate n (Z.of_nat k) address') as [rest final]. simpl in *. split.
  - intros y [= <-]. by apply Hup.
  - intros [|i] x y Hx Hy; simpl in *.
    + injection Hx as <-. by apply Hfirst.
    + by eapply Hnext.
Qed.

(** X2: on every IPv4 network [analyze] hands the addresses out in
    strictly increasing order, each one above the network address, so no
    address is handed out twice; this holds for the calls that return and
    for those the panic cuts short. *)
Theorem analyze_dispatches_upwards (Run : Pinger → RunResult)
    (ParseCIDR : string → option IPNet) (σ : store) (s : string) (ip : IP) (n : Z) :
  ParseCIDR s = Some (cidr_network ip n) →
  length ip = 4%nat → Forall (fun b => 0 <= b < 256) ip → 0 <= n <= 32 →
  ∀ i j x y,
    dispatched (analyze Run ParseCIDR σ s) !! i = Some x →
    dispatched (analyze Run ParseCIDR σ s) !! j = Some y →
    (ip_value (net_IP (cidr_network ip n)) < ip_value x) ∧
    ((i < j)%nat → ip_value x < ip_value y).
Proof.
  intros Hparse Hlen Hip Hn.
  rewrite (analyze_ipv4 Run ParseCIDR σ s ip n Hparse) by lia. cbv zeta. simpl dispatched.
  destruct (decide (n = 32)) as [->|Hne].
  { simpl. intros i j x y Hx. by rewrite lookup_nil in Hx. }
  destruct (network_shape ip n Hlen Hip ltac:(lia)) as (a & b & c & d & Hnet & _ & Hb & _).
  pose proof Hnet as Hnet'. simpl in Hnet'. rewrite Hnet, Hnet'. clear Hnet Hnet'.
  specialize (Hb ltac:(lia)).
  assert (Hk : 0 <= n / 8 <= 3).
  { split; [apply Z.div_pos; lia|]. apply Z.lt_succ_r, Z.div_lt_upper_bound; lia. }
  pose proof (enumerate_increases (Z.to_nat (2 ^ (32 - n) - 2)) (Z.to_nat (n / 8)) [a; b; c; d]
                eq_refl ltac:(lia) Hb) as [Hfirst Hnext].
  rewrite Z2Nat.id in * by lia.
  generalize dependent (enumerate (Z.to_nat (2 ^ (32 - n) - 2)) (n / 8) [a; b; c; d]).1.
  intros ips Hfirst Hnext.
  assert (Hgap : ∀ g i x y, ips !! i = Some x → ips !! (i + S g)%nat = Some y →
                            ip_value x < ip_value y).
  { induction g as [|g IHg]; intros i x y Hx Hy.
    - replace (i + 1)%nat with (S i) in Hy by lia. by eapply Hnext.
    - destruct (ips !! (i + S g)%nat) as [z|] eqn:Hz.
      + replace (i + S (S g))%nat with (S (i + S g)) in Hy by lia.
        pose proof (IHg i x z Hx Hz). pose proof (Hnext _ z y Hz Hy). lia.
      + apply lookup_ge_None in Hz. apply lookup_lt_Some in Hy. lia. }
  intros i j x y Hx Hy. split.
  - destruct i as [|i]; [by apply Hfirst|].
    destruct (ips !! 0%nat) as [z|] eqn:Hz.
    + pose proof (Hfirst z eq_refl). pose proof (Hgap i 0%nat z x Hz Hx). lia.
    + apply lookup_ge_None in Hz. apply lookup_lt_Some in Hx. lia.
  - intros Hij. apply (Hgap (j - i - 1)%nat i x y Hx).
    by replace (i + S (j - i - 1))%nat with j by lia.
Qed.

Lemma analyze_dispatches_upwards_witness :
  ip_value [10; 0; 0; 0] < ip_value [10; 0; 1; 0] ∧
  ((0 < 1)%nat → ip_value [10; 0; 1; 0] < ip_value [10; 0; 2; 0]).
Proof.
  apply (analyze_dispatches_upwards (replies 1) ParseCIDR4 [] "10.0.0.0/23" [10; 0; 0; 0] 23
           eq_refl eq_refl).
  - repeat first [apply Forall_cons_2 | apply Forall_nil_2]; lia.
  - lia.
  - vm_compute. reflexivity.
  - vm_compute. reflexivity.
Defined.

(** ** Which calls return *)

(** X3: on an IPv4 network [analyze] panics exactly when the prefix is
    shorter than 24, and returns a pool exactly when it is 24 or more; it
    never returns an error once the string has parsed. *)
Theorem analyze_returns_iff (Run : Pinger → RunResult)
    (ParseCIDR : string → option IPNet) (σ : store) (s : string) (ip : IP) (n : Z) :
  ParseCIDR s = Some (cidr_network ip n) →
  length ip = 4%nat → Forall (fun b => 0 <= b < 256) ip → 0 <= n <= 32 →
  (result (analyze Run ParseCIDR σ s) = Crashed ↔ n <= 23) ∧
  ((∃ pool, result (analyze Run ParseCIDR σ s) = Returned pool) ↔ 24 <= n).
Proof.
  intros Hparse Hlen Hip Hn.
  destruct (Z.le_gt_cases 24 n) as [Hhi|Hlo].
  - destruct (analyze_prefix24 Run ParseCIDR σ s ip n Hparse Hlen Hip ltac:(lia))
      as (a & b & c & d & _ & _ & _ & _ & ->).
    simpl. split; split; try done; try lia. intros _. by eexists.
  - rewrite (analyze_prefix23 Run ParseCIDR σ s ip n Hparse Hlen Hip) by lia.
    split; split; try done; try lia. by intros [pool ?].
Qed.

Lemma analyze_returns_iff_witness :
  result (analyze (replies 0) ParseCIDR4 [] "192.168.1.77/16") = Crashed ↔ 16 <= 23.
Proof.
  apply (analyze_returns_iff (replies 0) ParseCIDR4 [] "192.168.1.77/16" [192; 168; 1; 77] 16
           eq_refl eq_refl).
  - repeat first [apply Forall_cons_2 | apply Forall_nil_2]; lia.
  - lia.
Defined.

(** X4: on an IPv4 network with a prefix of 24 or more, the addresses
    [analyze] hands out are the network address with 1, 2, ...,
    [2^(32-n) - 2] added to its last byte, in that order, one cell of the
    store each; the next one up would be the broadcast address. *)
Theorem analyze_small_network (Run : Pinger → RunResult)
    (ParseCIDR : string → option IPNet) (σ : store) (s : string) (ip : IP) (n : Z) :
  ParseCIDR s = Some (cidr_network ip n) →
  length ip = 4%nat → Forall (fun b => 0 <= b < 256) ip → 24 <= n <= 32 →
  ∃ a b c d,
    net_IP (cidr_network ip n) = [a; b; c; d] ∧
    broadcast (net_IP (cidr_network ip n)) (net_Mask (cidr_network ip n))
      = [a; b; c; d + 2 ^ (32 - n) - 1] ∧
    dispatched (analyze Run ParseCIDR σ s)
      = map (fun i => [a; b; c; d + Z.of_nat i]) (seq 1 (Z.to_nat (2 ^ (32 - n) - 2))) ∧
    length (dispatched (analyze Run ParseCIDR σ s)) = Z.to_nat (2 ^ (32 - n) - 2) ∧
    cells (analyze Run ParseCIDR σ s) = σ ++ dispatched (analyze Run ParseCIDR σ s).
Proof.
  intros Hparse Hlen Hip Hn.
  destruct (analyze_prefix24 Run ParseCIDR σ s ip n Hparse Hlen Hip Hn)
    as (a & b & c & d & Hnet & _ & _ & Hbc & ->).
  exists a, b, c, d. simpl. repeat split; try done. apply length_hosts24.
Qed.

Lemma analyze_small_network_witness :
  ∃ a b c d,
    net_IP (cidr_network [172; 16; 5; 200] 29) = [a; b; c; d] ∧
    broadcast (net_IP (cidr_network [172; 16; 5; 200] 29))
              (net_Mask (cidr_network [172; 16; 5; 200] 29))
      = [a; b; c; d + 2 ^ (32 - 29) - 1] ∧
    dispatched (analyze (replies 0) ParseCIDR4 [] "172.16.5.200/29")
      = map (fun i => [a; b; c; d + Z.of_nat i]) (seq 1 (Z.to_nat (2 ^ (32 - 29) - 2))) ∧
    length (dispatched (analyze (replies 0) ParseCIDR4 [] "172.16.5.200/29"))
      = Z.to_nat (2 ^ (32 - 29) - 2) ∧
    cells (analyze (replies 0) ParseCIDR4 [] "172.16.5.200/29")
      = [] ++ dispatched (analyze (replies 0) ParseCIDR4 [] "172.16.5.200/29").
Proof.
  apply (analyze_small_network (replies 0) ParseCIDR4 [] "172.16.5.200/29"
           [172; 16; 5; 200] 29 eq_refl eq_refl).
  - repeat first [apply Forall_cons_2 | apply Forall_nil_2]; lia.
  - lia.
Defined.

(** X5: the pool [analyze] returns is empty exactly when none of the
    probes it started succeeded. *)
Theorem analyze_pool_empty_iff (Run : Pinger → RunResult)
    (ParseCIDR : string → option IPNet) (σ : store) (s : string) (ip : IP) (n : Z)
    (pool : gmap nat bool) :
  ParseCIDR s = Some (cidr_network ip n) →
  length ip = 4%nat → Forall (fun b => 0 <= b < 256) ip → 0 <= n <= 32 →
  result (analyze Run ParseCIDR σ s) = Returned pool →
  pool = ∅ ↔ ∀ x, x ∈ dispatched (analyze Run ParseCIDR σ s) → entry Run x = None.
Proof.
  intros Hparse Hlen Hip Hn Hret.
  destruct (Z.le_gt_cases 24 n) as [Hhi|Hlo].
  2: { by rewrite (analyze_prefix23 Run ParseCIDR σ s ip n Hparse Hlen Hip) in Hret by lia. }
  destruct (analyze_prefix24 Run ParseCIDR σ s ip n Hparse Hlen Hip ltac:(lia))
    as (a & b & c & d & _ & _ & _ & _ & Heq).
  rewrite Heq in *. simpl in *. injection Hret as <-. split.
  - intros Hempty x Hx. apply list_elem_of_lookup in Hx as [i Hx].
    assert (Hl : sweep Run ∅ (length σ) (hosts24 a b c d n) !! (length σ + i)%nat = None)
      by (by rewrite Hempty).
    rewrite sweep_lookup, lookup_empty, decide_True in Hl by lia.
    replace (length σ + i - length σ)%nat with i in Hl by lia. rewrite Hx in Hl.
    by destruct (entry Run x).
  - intros Hnone. apply map_eq. intros l. rewrite sweep_lookup, !lookup_empty.
    case_decide; [|done].
    destruct (hosts24 a b c d n !! (l - length σ)%nat) as [x|] eqn:Hx; [|done].
    rewrite (Hnone x); [done|]. apply list_elem_of_lookup. eauto.
Qed.

Lemma analyze_pool_empty_iff_witness :
  (∅ : gmap nat bool) = ∅ ↔
  ∀ x, x ∈ dispatched (analyze unreachable_transport ParseCIDR4 [] "10.0.0.0/30") →
       entry unreachable_transport x = None.
Proof.
  apply (analyze_pool_empty_iff unreachable_transport ParseCIDR4 [] "10.0.0.0/30"
           [10; 0; 0; 0] 30 ∅ eq_refl eq_refl).
  - repeat first [apply Forall_cons_2 | apply Forall_nil_2]; lia.
  - lia.
  - vm_compute. reflexivity.
Defined.

(** X6: for every IPv4 prefix the host count the code computes in 64-bit
    arithmetic is the exact [2^(32-n) - 2], between -1 and [2^32 - 2]; the
    loop is set up for that many rounds, none when the count is not
    positive, and steps from octet [floor(n / 8)]. *)
Theorem host_count_exact (ip : IP) (n : Z) :
  0 <= n <= 32 →
  maximumNumberOfHosts (cidr_network ip n) = Value (2 ^ (32 - n) - 2) ∧
  -1 <= 2 ^ (32 - n) - 2 <= 4294967294 ∧
  trips (2 ^ (32 - n) - 2) = Z.to_nat (2 ^ (32 - n) - 2) ∧
  octet_of_prefix (cidr_network ip n) = n / 8.
Proof.
  intros Hn. pose proof (host_count_range n Hn) as Hp.
  change (2 ^ 32) with 4294967296 in Hp.
  rewrite maximumNumberOfHosts_ipv4, trips_ipv4, octet_of_prefix_ipv4 by done.
  repeat split; lia.
Qed.

Lemma host_count_exact_witness :
  maximumNumberOfHosts (cidr_network [10; 1; 2; 3] 0) = Value (2 ^ (32 - 0) - 2) ∧
  -1 <= 2 ^ (32 - 0) - 2 <= 4294967294 ∧
  trips (2 ^ (32 - 0) - 2) = Z.to_nat (2 ^ (32 - 0) - 2) ∧
  octet_of_prefix (cidr_network [10; 1; 2; 3] 0) = 0 / 8.
Proof. apply (host_count_exact [10; 1; 2; 3] 0). lia. Defined.

(** ** The analyzer after a call *)

Lemma tally_none (P : Sched.task → bool) (l : list Sched.task) :
  (∀ t k, l !! t = Some k → P k = false) → tally P l = 0.
Proof.
  induction l as [|k l IH]; intros H; simpl; [done|].
  rewrite (H 0%nat k eq_refl), IH; [done|]. intros t k' Hk. by apply (H (S t)).
Qed.

(** X7: when a call returns, under whatever schedule, the analyzer is as
    [NewAnalizer] made it: the wait group is back at zero and the mutex is
    free; so the analyzer can serve the next call, which starts from that
    same state. *)
Theorem analyzer_reusable (Run : Pinger → RunResult) (σ : store) (network : IPNet)
    (s : Sched.state) :
  Sched.reachable Run σ network s → Sched.main s = Sched.AtReturn →
  analyzer_of s = NewAnalizer ∧
  ∀ network', analyzer_of (Sched.init (Sched.heap s) network') = analyzer_of s.
Proof.
  intros Hreach Hmain. pose proof Hreach as (maximum & _ & Hmax & _).
  destruct (reachable_invariant Run σ network maximum s Hmax Hreach)
    as [_ _ _ Hloop Hwg Hmu _ _].
  rewrite Hmain in Hloop. destruct Hloop as [_ Hz].
  assert (Hfree : Sched.mu s = false).
  { rewrite tally_none in Hmu.
    - destruct (Sched.mu s); [lia|done].
    - intros t k Hk. rewrite Hwg in Hz.
      pose proof (tally_zero Sched.running _ t k Hz Hk) as Hrun.
      unfold Sched.running in Hrun. unfold Sched.holds_lock.
      by destruct (Sched.task_pc k). }
  unfold analyzer_of, NewAnalizer. rewrite Hz, Hfree. done.
Qed.

Lemma analyzer_reusable_witness :
  ∃ st, Sched.main st = Sched.AtReturn ∧ analyzer_of st = NewAnalizer.
Proof.
  pose (sched := [Sched.Main; Sched.Main; Sched.Go 1; Sched.Go 0; Sched.Go 0; Sched.Main;
                  Sched.Go 0; Sched.Go 0; Sched.Go 1; Sched.Go 0; Sched.Go 1; Sched.Go 1;
                  Sched.Go 1; Sched.Main]).
  destruct (Sched.exec_schedule (replies 1) 3 3 sched
              (Sched.init [] (cidr_network [10; 0; 0; 0] 30))) as [st|] eqn:Hst;
    [|vm_compute in Hst; discriminate].
  assert (Hmain : Sched.main st = Sched.AtReturn).
  { vm_compute in Hst. injection Hst as <-. reflexivity. }
  exists st. split; [exact Hmain|].
  apply (analyzer_reusable (replies 1) [] (cidr_network [10; 0; 0; 0] 30) st); [|exact Hmain].
  exists 2, sched. split; [vm_compute; reflexivity | exact Hst].
Defined.

Lemma every_call_ends_witness :
  ∃ s,
    Sched.exec_schedule (replies 1) 3 3 [Sched.Main; Sched.Go 0; Sched.Main]
      (Sched.init [] (cidr_network [10; 0; 0; 0] 30)) = Some s ∧
    Z.of_nat 3 <= 6 * Z.of_nat (trips 2) + 2 ∧
    ∃ sched' s', Sched.exec_schedule (replies 1) 3 3 sched' s = Some s' ∧ ended s'.
Proof.
  destruct (Sched.exec_schedule (replies 1) 3 3 [Sched.Main; Sched.Go 0; Sched.Main]
              (Sched.init [] (cidr_network [10; 0; 0; 0] 30))) as [s|] eqn:Hs;
    [|vm_compute in Hs; discriminate].
  exists s. split; [reflexivity|].
  apply (every_call_ends (replies 1) [] (cidr_network [10; 0; 0; 0] 30) 2
           [Sched.Main; Sched.Go 0; Sched.Main] s); [vm_compute; reflexivity | exact Hs].
Defined.

(** ** Text *)

Lemma string_app_cons (a : ascii) (s1 s2 : string) :
  String a s1 +:+ s2 = String a (s1 +:+ s2).
Proof. reflexivity. Qed.

Lemma string_app_assoc (s1 s2 s3 : string) : (s1 +:+ s2) +:+ s3 = s1 +:+ (s2 +:+ s3).
Proof.
  induction s1 as [|a s1 IH]; [reflexivity|]. rewrite !string_app_cons. by rewrite IH.
Qed.

Lemma string_length_app (s1 s2 : string) :
  String.length (s1 +:+ s2) = (String.length s1 + String.length s2)%nat.
Proof.
  induction s1 as [|a s1 IH]; [reflexivity|]. rewrite string_app_cons. simpl. by rewrite IH.
Qed.

Lemma length_spaces (n : nat) : String.length (spaces n) = n.
Proof. induction n as [|n IH]; simpl; [done|]. by rewrite IH. Qed.

Lemma dots_snoc (n : nat) : dots n +:+ "." = dots (S n).
Proof.
  induction n as [|n IH]; [reflexivity|].
  change (dots (S n)) with (String "." (dots n)). rewrite string_app_cons. by rewrite IH.
Qed.

(** ** The loading loop *)

Lemma loading_from_frames (polls : list (gmap nat bool)) (c k r : nat) (frame : string) :
  (c < 4)%nat → r = ((c + k) mod 4)%nat →
  loading_from (Z.of_nat c, "loading" +:+ dots c) polls !! k = Some frame →
  frame = "loading" +:+ dots r.
Proof.
  revert c k. induction polls as [|pool polls IH]; intros c k Hc Hr; simpl; [done|].
  destruct (size pool =? 0)%nat; [|done].
  destruct k as [|k]; simpl.
  { intros [= <-]. subst r. by rewrite Nat.add_0_r, Nat.mod_small. }
  rewrite int_wrap_small by (change (2 ^ 63) with 9223372036854775808; lia).
  destruct (Z.eqb_spec (Z.of_nat c + 1) 4) as [H4|H4].
  - apply (IH 0%nat k); [lia|]. subst r.
    replace (c + S k)%nat with (0 + k + 1 * 4)%nat by lia. by rewrite Nat.Div0.mod_add.
  - replace (Z.of_nat c + 1) with (Z.of_nat (S c)) by lia.
    rewrite string_app_assoc, dots_snoc.
    apply IH; [lia|]. subst r. f_equal. lia.
Qed.

Lemma loading_from_length (polls : list (gmap nat bool)) (st : Z * string) (k : nat) :
  is_Some (loading_from st polls !! k) ↔
  ∀ i, (i <= k)%nat → polls !! i = Some ∅.
Proof.
  revert st k. induction polls as [|pool polls IH]; intros st k; simpl.
  { rewrite lookup_nil. split; [by intros [? ?]|]. intros H. by specialize (H 0%nat ltac:(lia)). }
  destruct (Nat.eqb_spec (size pool) 0) as [Hz|Hnz].
  - apply map_size_empty_inv in Hz. subst pool. destruct k as [|k]; simpl.
    + split; [|by eexists]. intros _ i Hi. by replace i with 0%nat by lia.
    + rewrite IH. split.
      * intros H [|i] Hi; [done|]. simpl. apply H. lia.
      * intros H i Hi. apply (H (S i)). lia.
  - rewrite lookup_nil. split; [by intros [? ?]|]. intros H.
    specialize (H 0%nat ltac:(lia)). injection H as ->. by rewrite map_size_empty in Hnz.
Qed.

(** X8: while the pool it sees is empty, the loading loop shows "loading"
    followed by 0, 1, 2, 3, 0, 1, ... dots, a frame per test of the loop;
    it shows a [k]-th frame exactly when every test up to the [k]-th saw
    an empty pool, so it never stops when the pool [analyze] returns is
    empty. *)
Theorem loading_frames (polls : list (gmap nat bool)) (k : nat) :
  (∀ frame, loading polls !! k = Some frame → frame = "loading" +:+ dots (k mod 4)) ∧
  (is_Some (loading polls !! k) ↔ ∀ i, (i <= k)%nat → polls !! i = Some ∅).
Proof.
  split.
  - intros frame H. by apply (loading_from_frames polls 0%nat k (k mod 4) frame) in H; [|lia|].
  - apply loading_from_length.
Qed.

(** ** The order of addresses *)

Lemma bytes_Compare_antisym (a b : list Z) : bytes_Compare b a = - bytes_Compare a b.
Proof.
  revert b. induction a as [|x a IH]; intros [|y b]; simpl; try done.
  destruct (Z.ltb_spec x y), (Z.ltb_spec y x); try lia. apply IH.
Qed.

Lemma bytes_Compare_eq (a b : list Z) : bytes_Compare a b = 0 → a = b.
Proof.
  revert b. induction a as [|x a IH]; intros [|y b]; simpl; try done.
  destruct (Z.ltb_spec x y), (Z.ltb_spec y x); try done.
  intros Heq. f_equal; [lia | by apply IH].
Qed.

Lemma bytes_Compare_range (a b : list Z) : -1 <= bytes_Compare a b <= 1.
Proof.
  revert b. induction a as [|x a IH]; intros [|y b]; simpl; try lia.
  destruct (x <? y), (y <? x); try lia. apply IH.
Qed.

Lemma bytes_Compare_trans (a b c : list Z) :
  bytes_Compare a b <= 0 → bytes_Compare b c <= 0 → bytes_Compare a c <= 0.
Proof.
  revert b c. induction a as [|x a IH]; intros [|y b] [|z c]; simpl; try lia.
  destruct (Z.ltb_spec x y), (Z.ltb_spec y x), (Z.ltb_spec y z), (Z.ltb_spec z y),
    (Z.ltb_spec x z), (Z.ltb_spec z x); try lia.
  apply IH.
Qed.

(** On addresses that differ in the last byte only, the order is that of
    the last byte. *)
Lemma bytes_Compare_last (a b c u v : Z) :
  u < v → bytes_Compare [a; b; c; u] [a; b; c; v] = -1.
Proof.
  intros Huv. simpl. rewrite !Z.ltb_irrefl.
  by destruct (Z.ltb_spec u v); [|lia].
Qed.

Lemma not_above_trans (σ : store) (x y z : nat) :
  not_above σ x y → not_above σ y z → not_above σ x z.
Proof.
  unfold not_above, less. intros Hxy Hyz.
  apply Z.ltb_ge in Hxy, Hyz. apply Z.ltb_ge.
  rewrite bytes_Compare_antisym in Hxy, Hyz |- *.
  pose proof (bytes_Compare_trans (deref σ x) (deref σ y) (deref σ z)). lia.
Qed.

Lemma not_above_antisym (σ : store) (x y : nat) :
  not_above σ x y → not_above σ y x → deref σ x = deref σ y.
Proof.
  unfold not_above, less. intros Hxy Hyx.
  apply Z.ltb_ge in Hxy, Hyx. rewrite bytes_Compare_antisym in Hxy.
  apply bytes_Compare_eq. lia.
Qed.

Lemma sorted_of_lookup (σ : store) (l : list nat) :
  (∀ i j x y, (i < j)%nat → l !! i = Some x → l !! j = Some y → less σ y x = false) →
  StronglySorted (not_above σ) l.
Proof.
  induction l as [|x l IH]; intros H; constructor.
  - apply IH. intros i j y z Hij Hy Hz. apply (H (S i) (S j)); [lia|done..].
  - apply Forall_lookup. intros j y Hy. apply (H 0%nat (S j)); [lia|done..].
Qed.

Lemma lookup_of_sorted (σ : store) (l : list nat) :
  StronglySorted (not_above σ) l →
  ∀ i j x y, (i < j)%nat → l !! i = Some x → l !! j = Some y → less σ y x = false.
Proof.
  induction 1 as [|x l Hl IH Hx]; intros i j y z Hij Hy Hz.
  { by rewrite lookup_nil in Hy. }
  destruct j as [|j]; [lia|]. simpl in Hz. destruct i as [|i]; simpl in Hy.
  - injection Hy as <-. rewrite Forall_lookup in Hx. by apply (Hx j).
  - apply (IH i j); [lia|done..].
Qed.

(** Two sorted slices of the same pointers, to distinct addresses, are
    the same slice. *)
Lemma sorted_slice_unique (σ : store) (l1 l2 : list nat) :
  (∀ x y, x ∈ l1 → y ∈ l1 → deref σ x = deref σ y → x = y) →
  l1 ≡ₚ l2 →
  StronglySorted (not_above σ) l1 → StronglySorted (not_above σ) l2 → l1 = l2.
Proof.
  intros Hinj Hperm H1 H2.
  apply (StronglySorted_unique_strong (not_above σ)); try done.
  intros x y Hx Hy Hxy Hyx. apply Hinj; [done | by rewrite Hperm |].
  by apply not_above_antisym.
Qed.

Lemma insert_sorted_Permutation (f : nat → nat → bool) (x : nat) (l : list nat) :
  insert_sorted f x l ≡ₚ x :: l.
Proof.
  induction l as [|y l IH]; simpl; [done|].
  destruct (f y x); [|done]. rewrite IH. apply Permutation_swap.
Qed.

Lemma insertion_sort_Permutation (f : nat → nat → bool) (l : list nat) :
  insertion_sort f l ≡ₚ l.
Proof.
  induction l as [|x l IH]; simpl; [done|].
  by rewrite insert_sorted_Permutation, IH.
Qed.

Lemma insert_sorted_sorted (σ : store) (x : nat) (l : list nat) :
  StronglySorted (not_above σ) l → StronglySorted (not_above σ) (insert_sorted (less σ) x l).
Proof.
  induction 1 as [|y l Hl IH Hy]; simpl.
  { repeat constructor. }
  destruct (less σ y x) eqn:Hyx.
  - constructor; [done|]. rewrite insert_sorted_Permutation.
    constructor; [|done]. unfold not_above, less in *.
    apply Z.ltb_lt in Hyx. apply Z.ltb_ge. rewrite bytes_Compare_antisym. lia.
  - constructor; [by constructor|]. constructor; [done|].
    eapply Forall_impl; [exact Hy|]. intros z Hz. by eapply not_above_trans.
Qed.

(** Insertion sort does what the program relies on. *)
Lemma insertion_sort_sorts (σ : store) : sorts insertion_sort σ.
Proof.
  intros l. split; [apply insertion_sort_Permutation|].
  apply lookup_of_sorted. induction l as [|x l IH]; simpl; [constructor|].
  by apply insert_sorted_sorted.
Qed.

(** ** What is listed *)

Lemma filter_Permutation_bool {A} (f : A → bool) (l1 l2 : list A) :
  l1 ≡ₚ l2 → List.filter f l1 ≡ₚ List.filter f l2.
Proof.
  induction 1 as [|x l1 l2 _ IH|x y l|l1 l2 l3 _ IH1 _ IH2]; simpl.
  - done.
  - destruct (f x); [by constructor | done].
  - destruct (f x), (f y); try done. apply Permutation_swap.
  - by etrans.
Qed.

Lemma elem_of_collect (pool : gmap nat bool) (showOnlyUsed : bool) (keys : list nat)
    (ip : nat) :
  ip ∈ collect pool showOnlyUsed keys ↔
  ip ∈ keys ∧ (showOnlyUsed = false ∨ at_key pool ip = true).
Proof.
  unfold collect. rewrite !list_elem_of_In, filter_In.
  destruct showOnlyUsed, (at_key pool ip); simpl; intuition congruence.
Qed.

(** X9: the pointers the grid is printed from are those of the pool, each
    once; with "-u" as first argument only those whose entry is [true] are
    kept, without it all of them; this holds in whatever order the map is
    ranged over and whatever [sort.Slice] does beyond permuting. *)
Theorem shown_lists_pool (sort_Slice : (nat → nat → bool) → list nat → list nat)
    (σ : store) (pool : gmap nat bool) (Args : list string) (keys : list nat) :
  sorts sort_Slice σ → keys ≡ₚ (map_to_list pool).*1 →
  NoDup (shown sort_Slice σ pool (showOnlyUsedIPs Args) keys) ∧
  ∀ ip, ip ∈ shown sort_Slice σ pool (showOnlyUsedIPs Args) keys ↔
        pool !! ip = Some true ∨
        (showOnlyUsedIPs Args = false ∧ pool !! ip = Some false).
Proof.
  intros Hsort Hkeys. unfold shown.
  destruct (Hsort (collect pool (showOnlyUsedIPs Args) keys)) as [Hperm _].
  split.
  - rewrite Hperm. unfold collect. apply NoDup_ListNoDup, List.NoDup_filter, NoDup_ListNoDup.
    rewrite Hkeys. apply NoDup_fst_map_to_list.
  - intros ip. rewrite Hperm, elem_of_collect, Hkeys, list_elem_of_fmap. unfold at_key.
    split.
    + intros [([ip' used] & -> & Hin) Hkeep]. apply elem_of_map_to_list in Hin.
      simpl in *. rewrite Hin in *. simpl in Hkeep.
      destruct used; [by left | right]. destruct Hkeep as [Hkeep|Hkeep]; done.
    + intros Hip. assert (∃ used, pool !! ip = Some used) as [used Hused].
      { destruct Hip as [Hip|[_ Hip]]; eauto. }
      split.
      * exists (ip, used). split; [done|]. by apply elem_of_map_to_list.
      * rewrite Hused. simpl. rewrite Hused in Hip.
        destruct Hip as [Hip|[Hshow Hip]]; [right; congruence | by left].
Qed.

Lemma shown_lists_pool_witness :
  NoDup (shown insertion_sort [[10; 0; 0; 1]; [10; 0; 0; 2]]
           (<[0%nat := true]> (<[1%nat := false]> ∅)) (showOnlyUsedIPs ["ipdefiner"; "-u"])
           [1; 0]%nat).
Proof.
  apply (shown_lists_pool insertion_sort [[10; 0; 0; 1]; [10; 0; 0; 2]]
           (<[0%nat := true]> (<[1%nat := false]> ∅)) ["ipdefiner"; "-u"] [1; 0]%nat).
  - apply insertion_sort_sorts.
  - vm_compute. first [reflexivity | apply Permutation_swap].
Defined.

(** X10: the text shown does not depend on the order in which the map is
    ranged over, nor on which sorted permutation [sort.Slice] returns,
    when the pointers of the pool point to distinct addresses (as those of
    a pool [analyze] returned do). *)
Theorem render_deterministic (sort1 sort2 : (nat → nat → bool) → list nat → list nat)
    (σ : store) (pool : gmap nat bool) (showOnlyUsed : bool) (keys1 keys2 : list nat)
    (input : string) :
  sorts sort1 σ → sorts sort2 σ → keys1 ≡ₚ keys2 →
  (∀ x y, x ∈ keys1 → y ∈ keys1 → deref σ x = deref σ y → x = y) →
  shown sort1 σ pool showOnlyUsed keys1 = shown sort2 σ pool showOnlyUsed keys2 ∧
  render sort1 σ pool showOnlyUsed keys1 input = render sort2 σ pool showOnlyUsed keys2 input.
Proof.
  intros Hs1 Hs2 Hkeys Hinj.
  assert (Heq : shown sort1 σ pool showOnlyUsed keys1 = shown sort2 σ pool showOnlyUsed keys2).
  { unfold shown.
    destruct (Hs1 (collect pool showOnlyUsed keys1)) as [Hp1 Hl1].
    destruct (Hs2 (collect pool showOnlyUsed keys2)) as [Hp2 Hl2].
    apply (sorted_slice_unique σ); [| |by apply sorted_of_lookup..].
    - intros x y Hx Hy. rewrite Hp1 in Hx, Hy.
      apply elem_of_collect in Hx as [Hx _]. apply elem_of_collect in Hy as [Hy _]. eauto.
    - rewrite Hp1, Hp2. unfold collect. by apply filter_Permutation_bool. }
  split; [done|]. unfold render. by rewrite Heq.
Qed.

Lemma render_deterministic_witness :
  render insertion_sort [[10; 0; 0; 1]; [10; 0; 0; 2]]
    (<[0%nat := true]> (<[1%nat := false]> ∅)) false [1; 0]%nat "10.0.0.0/30" =
  render insertion_sort [[10; 0; 0; 1]; [10; 0; 0; 2]]
    (<[0%nat := true]> (<[1%nat := false]> ∅)) false [0; 1]%nat "10.0.0.0/30".
Proof.
  apply (render_deterministic insertion_sort insertion_sort [[10; 0; 0; 1]; [10; 0; 0; 2]]
           (<[0%nat := true]> (<[1%nat := false]> ∅)) false [1; 0]%nat [0; 1]%nat
           "10.0.0.0/30").
  - apply insertion_sort_sorts.
  - apply insertion_sort_sorts.
  - apply Permutation_swap.
  - intros x y Hx Hy.
    apply elem_of_cons in Hx as [->|Hx]; [|apply elem_of_cons in Hx as [->|Hx];
      [|by apply elem_of_nil in Hx]];
    (apply elem_of_cons in Hy as [->|Hy]; [|apply elem_of_cons in Hy as [->|Hy];
      [|by apply elem_of_nil in Hy]]);
    vm_compute; congruence.
Defined.

(** ** The grid *)

Lemma row_entries (σ : store) (pool : gmap nat bool) (ips : list nat) (i : nat) :
  row σ pool ips i =
    [cell σ pool ips i; cell σ pool ips (i + 1); cell σ pool ips (i + 2);
     cell σ pool ips (i + 3)].
Proof. unfold row. simpl. by rewrite Nat.add_0_r. Qed.

Lemma rows_shape (σ : store) (pool : gmap nat bool) (ips : list nat) (fuel i : nat) :
  (length ips - i <= fuel)%nat →
  concat (rows σ pool fuel ips i) =
    map (entry_cell σ pool) (drop i ips) ++
    replicate ((4 - (length ips - i) mod 4) mod 4) (filler_cell) ∧
  length (rows σ pool fuel ips i) = ((length ips - i + 3) / 4)%nat ∧
  Forall (fun r => length r = 4%nat) (rows σ pool fuel ips i).
Proof.
  revert i. induction fuel as [|fuel IH]; intros i Hfuel.
  { simpl. rewrite drop_ge by lia.
    replace (length ips - i)%nat with 0%nat by lia. repeat split. apply Forall_nil_2. }
  change (rows σ pool (S fuel) ips i) with
    (if (i <? length ips)%nat
     then row σ pool ips i :: rows σ pool fuel ips (i + numColumns) else []).
  destruct (Nat.ltb_spec i (length ips)) as [Hlt|Hge].
  2: { rewrite drop_ge by lia. replace (length ips - i)%nat with 0%nat by lia.
       repeat split. apply Forall_nil_2. }
  change (i + numColumns)%nat with (i + 4)%nat.
  destruct (IH (i + 4)%nat ltac:(lia)) as (Hcat & Hlen & Hall).
  split; [|split].
  - cbn [concat]. rewrite Hcat, row_entries. unfold cell.
    destruct (ips !! i) as [x0|] eqn:H0; [|apply lookup_ge_None in H0; lia].
    rewrite (drop_S ips x0 i H0).
    destruct (ips !! (i + 1)%nat) as [x1|] eqn:H1.
    2: { apply lookup_ge_None in H1.
         rewrite (lookup_ge_None_2 ips (i + 2)), (lookup_ge_None_2 ips (i + 3)) by lia.
         rewrite !drop_ge by lia.
         replace (length ips - i)%nat with 1%nat by lia.
         replace (length ips - (i + 4))%nat with 0%nat by lia. reflexivity. }
    replace (S i) with (i + 1)%nat by lia. rewrite (drop_S ips x1 (i + 1) H1).
    pose proof (lookup_lt_Some _ _ _ H1) as L1.
    destruct (ips !! (i + 2)%nat) as [x2|] eqn:H2.
    2: { apply lookup_ge_None in H2. rewrite (lookup_ge_None_2 ips (i + 3)) by lia.
         rewrite !drop_ge by lia.
         replace (length ips - i)%nat with 2%nat by lia.
         replace (length ips - (i + 4))%nat with 0%nat by lia. reflexivity. }
    replace (S (i + 1)) with (i + 2)%nat by lia. rewrite (drop_S ips x2 (i + 2) H2).
    pose proof (lookup_lt_Some _ _ _ H2) as L2.
    destruct (ips !! (i + 3)%nat) as [x3|] eqn:H3.
    2: { apply lookup_ge_None in H3. rewrite !drop_ge by lia.
         replace (length ips - i)%nat with 3%nat by lia.
         replace (length ips - (i + 4))%nat with 0%nat by lia. reflexivity. }
    replace (S (i + 2)) with (i + 3)%nat by lia. rewrite (drop_S ips x3 (i + 3) H3).
    replace (S (i + 3)) with (i + 4)%nat by lia. apply lookup_lt_Some in H3.
    replace ((length ips - i) mod 4)%nat with ((length ips - (i + 4)) mod 4)%nat;
      [reflexivity|].
    replace (length ips - i)%nat with (length ips - (i + 4) + 1 * 4)%nat by lia.
    by rewrite Nat.Div0.mod_add.
  - cbn [length]. rewrite Hlen. clear - Hlt.
    assert (length ips - i <= 3 ∨ 4 <= length ips - i)%nat as [Hfew|Hmany] by lia.
    + replace (length ips - (i + 4))%nat with 0%nat by lia.
      assert (length ips - i = 1 ∨ length ips - i = 2 ∨ length ips - i = 3)%nat
        as [->|[->| ->]] by lia; reflexivity.
    + replace (length ips - i + 3)%nat with (length ips - (i + 4) + 3 + 1 * 4)%nat by lia.
      rewrite Nat.div_add by lia. lia.
  - apply Forall_cons_2; [|done]. by rewrite row_entries.
Qed.

(** X11: the grid is printed in rows of exactly four cells, as many rows
    as it takes ([ceil(len / 4)]); read row by row, the cells are one entry
    per pointer of the sorted slice, in its order, followed by empty cells
    that fill up the last row. *)
Theorem grid_shape (sort_Slice : (nat → nat → bool) → list nat → list nat)
    (σ : store) (pool : gmap nat bool) (showOnlyUsed : bool) (keys : list nat) :
  let ips := shown sort_Slice σ pool showOnlyUsed keys in
  let grid := rows σ pool (length ips) ips 0 in
  concat grid =
    map (entry_cell σ pool) ips ++ replicate ((4 - length ips mod 4) mod 4) filler_cell ∧
  length grid = ((length ips + 3) / 4)%nat ∧
  Forall (fun r => length r = 4%nat) grid.
Proof.
  intros ips grid. subst grid.
  destruct (rows_shape σ pool ips (length ips) 0 ltac:(lia)) as (Hcat & Hlen & Hall).
  rewrite Nat.sub_0_r in *. by rewrite drop_0 in Hcat.
Qed.

(** ** The width of an entry *)

Lemma length_ubtoa (v : Z) : (1 <= String.length (ubtoa v) <= 3)%nat.
Proof. unfold ubtoa. destruct (v <? 10), (v <? 100); simpl; lia. Qed.

Lemma length_IP_String (a b c d : Z) :
  (7 <= String.length (IP_String [a; b; c; d]) <= 15)%nat.
Proof.
  unfold IP_String. rewrite !string_length_app.
  pose proof (length_ubtoa a). pose proof (length_ubtoa b).
  pose proof (length_ubtoa c). pose proof (length_ubtoa d).
  change (String.length ".") with 1%nat. lia.
Qed.

(** X12: for a pointer to a four-byte address, the entry is the dotted
    address (7 to 15 characters), blanks up to column 15, " - ", the colour
    tag and "used" or "free" as the pool has it, then "[white]" and four
    blanks; the address is never cut or pushed past its column, and the
    entry is 40 characters long for a used address and 38 for a free one. *)
Theorem entry_cell_layout (σ : store) (pool : gmap nat bool) (ip : nat) (a b c d : Z) :
  σ !! ip = Some [a; b; c; d] →
  (7 <= String.length (IP_String [a; b; c; d]) <= 15)%nat ∧
  entry_cell σ pool ip =
    IP_String [a; b; c; d] +:+
    spaces (15 - String.length (IP_String [a; b; c; d])) +:+ " - " +:+
    (if at_key pool ip then "[green]used" else "[red]free") +:+ "[white]    " ∧
  String.length (entry_cell σ pool ip) = (if at_key pool ip then 40 else 38)%nat.
Proof.
  intros Hip. pose proof (length_IP_String a b c d) as Hlen. split; [done|].
  assert (Hcell : entry_cell σ pool ip =
    IP_String [a; b; c; d] +:+
    spaces (15 - String.length (IP_String [a; b; c; d])) +:+ " - " +:+
    (if at_key pool ip then "[green]used" else "[red]free") +:+ "[white]    ").
  { unfold entry_cell, pad_right, paddingBetweenIpState, deref. rewrite Hip. simpl default.
    replace (Z.to_nat (15 - Z.of_nat (String.length (IP_String [a; b; c; d]))))
      with (15 - String.length (IP_String [a; b; c; d]))%nat by lia.
    rewrite !string_app_assoc. do 3 f_equal. by destruct (at_key pool ip). }
  split; [exact Hcell|]. rewrite Hcell, !string_length_app, length_spaces.
  generalize dependent (String.length (IP_String [a; b; c; d])). intros m Hm _.
  destruct (at_key pool ip); simpl; lia.
Qed.

Lemma entry_cell_layout_witness :
  String.length (entry_cell [[192; 168; 100; 254]] (<[0%nat := false]> ∅) 0) = 38%nat.
Proof.
  destruct (entry_cell_layout [[192; 168; 100; 254]] (<[0%nat := false]> ∅) 0
              192 168 100 254 eq_refl) as (_ & _ & Hlen).
  exact Hlen.
Defined.

(** ** From the probes to the grid *)

Lemma Forall_filter_bool {A} (P : A → Prop) (f : A → bool) (l : list A) :
  Forall P l → Forall P (List.filter f l).
Proof.
  induction 1 as [|x l Hx _ IH]; simpl; [constructor|].
  destruct (f x); [by constructor | done].
Qed.

Lemma StronglySorted_filter_bool {A} (R : relation A) (f : A → bool) (l : list A) :
  StronglySorted R l → StronglySorted R (List.filter f l).
Proof.
  induction 1 as [|x l _ IH Hx]; simpl; [constructor|].
  destruct (f x); [|done]. constructor; [done|]. by apply Forall_filter_bool.
Qed.

Lemma map_filter_seq {A} (l : list A) (base : nat) (get : nat → A) (keep : nat → bool)
    (g : A → bool) :
  (∀ i x, l !! i = Some x → get (base + i)%nat = x ∧ keep (base + i)%nat = g x) →
  map get (List.filter keep (seq base (length l))) = List.filter g l.
Proof.
  revert base. induction l as [|x l IH]; intros base H; simpl; [done|].
  destruct (H 0%nat x eq_refl) as [Hget Hkeep]. rewrite Nat.add_0_r in Hget, Hkeep.
  rewrite Hkeep.
  assert (Hrest : map get (List.filter keep (seq (S base) (length l))) = List.filter g l).
  { apply IH. intros i y Hy. replace (S base + i)%nat with (base + S i)%nat by lia.
    by apply H. }
  destruct (g x); simpl; by rewrite ?Hget, Hrest.
Qed.

(** X13: when [analyze] has returned, the grid shows, in the order in
    which [analyze] handed them out, exactly the addresses whose probe
    gave a verdict (with "-u": the verdict "reachable"); the addresses
    whose probe failed are not shown.  This holds for any order in which
    the map is ranged over and any [sort.Slice] that sorts. *)
Theorem grid_follows_dispatch (Run : Pinger → RunResult)
    (ParseCIDR : string → option IPNet)
    (sort_Slice : (nat → nat → bool) → list nat → list nat)
    (σ : store) (s : string) (ip : IP) (n : Z) (pool : gmap nat bool)
    (showOnlyUsed : bool) (keys : list nat) :
  ParseCIDR s = Some (cidr_network ip n) →
  length ip = 4%nat → Forall (fun b => 0 <= b < 256) ip → 0 <= n <= 32 →
  result (analyze Run ParseCIDR σ s) = Returned pool →
  sorts sort_Slice (cells (analyze Run ParseCIDR σ s)) →
  keys ≡ₚ (map_to_list pool).*1 →
  map (deref (cells (analyze Run ParseCIDR σ s)))
      (shown sort_Slice (cells (analyze Run ParseCIDR σ s)) pool showOnlyUsed keys)
    = List.filter (fun x => match entry Run x with
                            | Some used => negb (showOnlyUsed && negb used)
                            | None => false
                            end)
        (dispatched (analyze Run ParseCIDR σ s)).
Proof.
  intros Hparse Hlen Hip Hn Hret.
  destruct (Z.le_gt_cases 24 n) as [Hhi|Hlo].
  2: { by rewrite (analyze_prefix23 Run ParseCIDR σ s ip n Hparse Hlen Hip) in Hret by lia. }
  destruct (analyze_prefix24 Run ParseCIDR σ s ip n Hparse Hlen Hip ltac:(lia))
    as (a & b & c & d & _ & _ & _ & _ & Heq).
  rewrite Heq in *. simpl in *. injection Hret as <-. clear Heq.
  set (hosts := hosts24 a b c d n). set (base := length σ).
  set (pool := sweep Run ∅ base hosts). set (heap := σ ++ hosts).
  intros Hsort Hkeys.
  (* the cell and the entry of the [i]-th address *)
  assert (Hcell : ∀ i x, hosts !! i = Some x →
            deref heap (base + i) = x ∧ pool !! (base + i)%nat = entry Run x).
  { intros i x Hx. split.
    - unfold deref, heap, base, IP in *. rewrite lookup_app_r by lia.
      replace (length σ + i - length σ)%nat with i by lia. by rewrite Hx.
    - unfold pool. rewrite sweep_lookup, lookup_empty, decide_True by lia.
      replace (base + i - base)%nat with i by lia. rewrite Hx. by destruct (entry Run x). }
  assert (Hrange : ∀ p, is_Some (pool !! p) → ∃ i x, p = (base + i)%nat ∧ hosts !! i = Some x).
  { intros p [used Hp]. unfold pool in Hp. rewrite sweep_lookup, lookup_empty in Hp.
    case_decide; [|done].
    destruct (hosts !! (p - base)%nat) as [x|] eqn:Hx; [|done].
    exists (p - base)%nat, x. split; [lia|done]. }
  set (keep := fun p => match pool !! p with
                        | Some used => negb (showOnlyUsed && negb used)
                        | None => false
                        end).
  assert (Hshown : shown sort_Slice heap pool showOnlyUsed keys
                   = List.filter keep (seq base (length hosts))).
  { unfold shown. destruct (Hsort (collect pool showOnlyUsed keys)) as [Hperm Hlook].
    apply (sorted_slice_unique heap).
    - intros p q Hp Hq Hpq. rewrite Hperm in Hp, Hq.
      apply elem_of_collect in Hp as [Hp _]. apply elem_of_collect in Hq as [Hq _].
      rewrite Hkeys in Hp, Hq.
      apply list_elem_of_fmap in Hp as ([p' up] & -> & Hp).
      apply list_elem_of_fmap in Hq as ([q' uq] & -> & Hq).
      apply elem_of_map_to_list in Hp, Hq. simpl in *.
      destruct (Hrange p' ltac:(eauto)) as (i & x & -> & Hx).
      destruct (Hrange q' ltac:(eauto)) as (j & y & -> & Hy).
      rewrite (proj1 (Hcell i x Hx)), (proj1 (Hcell j y Hy)) in Hpq. subst y.
      f_equal. by eapply NoDup_lookup; [apply NoDup_hosts24|..].
    - rewrite Hperm. apply NoDup_Permutation.
      + unfold collect. apply NoDup_ListNoDup, List.NoDup_filter, NoDup_ListNoDup.
        rewrite Hkeys. apply NoDup_fst_map_to_list.
      + apply NoDup_ListNoDup, List.NoDup_filter, NoDup_ListNoDup, NoDup_seq.
      + intros p. rewrite elem_of_collect, Hkeys, !list_elem_of_In, filter_In.
        rewrite <- !list_elem_of_In, elem_of_seq, list_elem_of_fmap.
        unfold keep, at_key. split.
        * intros [([p' used] & -> & Hp) Hkeep]. apply elem_of_map_to_list in Hp.
          simpl in *. destruct (Hrange p' ltac:(eauto)) as (i & x & -> & Hx).
          apply lookup_lt_Some in Hx. rewrite Hp in *. simpl in Hkeep.
          split; [lia|]. destruct showOnlyUsed, used; simpl; intuition congruence.
        * intros [_ Hkeep]. destruct (pool !! p) as [used|] eqn:Hp; [|done]. split.
          -- exists (p, used). split; [done|]. by apply elem_of_map_to_list.
          -- simpl. destruct showOnlyUsed, used; simpl in *; intuition congruence.
    - by apply sorted_of_lookup.
    - apply StronglySorted_filter_bool, sorted_of_lookup.
      intros i j p q Hij Hp Hq. apply lookup_seq in Hp as [-> Hi]. apply lookup_seq in Hq as [-> Hj].
      destruct (lookup_lt_is_Some_2 hosts i Hi) as [x Hx].
      destruct (lookup_lt_is_Some_2 hosts j Hj) as [y Hy].
      unfold less. rewrite (proj1 (Hcell i x Hx)), (proj1 (Hcell j y Hy)).
      apply hosts24_lookup in Hx as [-> _]. apply hosts24_lookup in Hy as [-> _].
      rewrite bytes_Compare_antisym, bytes_Compare_last by lia. reflexivity. }
  rewrite Hshown. apply map_filter_seq. intros i x Hx.
  destruct (Hcell i x Hx) as [Hget Hentry]. split; [done|].
  unfold keep. by rewrite Hentry.
Qed.

Lemma grid_follows_dispatch_witness :
  map (deref (cells (analyze (replies 1) ParseCIDR4 [] "10.0.0.0/30")))
      (shown insertion_sort (cells (analyze (replies 1) ParseCIDR4 [] "10.0.0.0/30"))
         (<[0%nat := true]> (<[1%nat := true]> ∅)) true [1; 0]%nat)
    = List.filter (fun x => match entry (replies 1) x with
                            | Some used => negb (true && negb used)
                            | None => false
                            end)
        (dispatched (analyze (replies 1) ParseCIDR4 [] "10.0.0.0/30")).
Proof.
  apply (grid_follows_dispatch (replies 1) ParseCIDR4 insertion_sort [] "10.0.0.0/30"
           [10; 0; 0; 0] 30 (<[0%nat := true]> (<[1%nat := true]> ∅)) true [1; 0]%nat
           eq_refl eq_refl).
  - repeat first [apply Forall_cons_2 | apply Forall_nil_2]; lia.
  - lia.
  - vm_compute. reflexivity.
  - apply insertion_sort_sorts.
  - vm_compute. first [reflexivity | apply Permutation_swap].
Defined.

(** ** The pool while the call runs *)

(** X14: no step of the call removes or changes an entry of the pool: a
    goroutine writes under a key that has no entry yet, so the pool only
    grows. *)
Theorem pool_only_grows (Run : Pinger → RunResult) (σ : store) (network : IPNet)
    (maximum : Z) (a : Sched.action) (s s' : Sched.state) :
  maximumNumberOfHosts network = Value maximum →
  Sched.reachable Run σ network s →
  Sched.step Run (int_wrap (maximum + 1)) (octet_of_prefix network) a s = Some s' →
  Sched.addressPool s ⊆ Sched.addressPool s'.
Proof.
  intros Hmax Hreach Hstep.
  destruct (reachable_invariant Run σ network maximum s Hmax Hreach)
    as [_ Hptr _ _ _ _ _ Hpool].
  destruct a as [|t]; simpl in Hstep.
  - unfold Sched.step_main in Hstep.
    repeat case_match; try discriminate; by injection Hstep as <-.
  - destruct (step_task_effect Run t s s' Hstep)
      as (_ & k & p & Hk & _ & _ & _ & _ & Hcase).
    destruct (Sched.task_pc k) as [|used|used| | |] eqn:Hpc; [| | | | |done].
    1, 2, 4, 5: repeat match goal with H : _ ∧ _ |- _ => destruct H end;
      match goal with H : Sched.addressPool _ = Sched.addressPool _ |- _ => by rewrite H end.
    destruct Hcase as (_ & _ & _ & ->). apply insert_subseteq.
    rewrite Hpool, (Hptr t k Hk). unfold pool_of. rewrite decide_True by lia.
    replace (length σ + t - length σ)%nat with t by lia. rewrite Hk.
    unfold past_store. by rewrite Hpc.
Qed.

Lemma pool_only_grows_witness :
  ∃ s s',
    Sched.step (replies 1) 3 3 (Sched.Go 0) s = Some s' ∧
    Sched.addressPool s ⊆ Sched.addressPool s'.
Proof.
  destruct (Sched.exec_schedule (replies 1) 3 3 [Sched.Main; Sched.Go 0; Sched.Go 0]
              (Sched.init [] (cidr_network [10; 0; 0; 0] 30))) as [s|] eqn:Hs;
    [|vm_compute in Hs; discriminate].
  destruct (Sched.step (replies 1) 3 3 (Sched.Go 0) s) as [s'|] eqn:Hstep.
  2: { vm_compute in Hs. injection Hs as <-. vm_compute in Hstep. discriminate. }
  exists s, s'. split; [exact Hstep|].
  apply (pool_only_grows (replies 1) [] (cidr_network [10; 0; 0; 0] 30) 2 (Sched.Go 0) s s').
  - vm_compute. reflexivity.
  - exists 2, [Sched.Main; Sched.Go 0; Sched.Go 0]. split; [vm_compute; reflexivity | exact Hs].
  - exact Hstep.
Defined.

(** ** The loading loop and the result *)

(** X15: the loop watches the caller's variable, which holds an empty map
    until [analyze] has returned.  If the loop tests [k] times before that
    and the pool returned is not empty, it shows exactly [k] frames and
    stops at the next test; if the pool returned is empty it goes on with
    a frame per test. *)
Theorem loading_until_result (k m : nat) (pool : gmap nat bool) :
  loading (replicate k ∅ ++ replicate m pool) =
    map (fun i => "loading" +:+ dots (i mod 4))
        (seq 0 (if decide (pool = ∅) then k + m else k)).
Proof.
  apply list_eq. intros i.
  pose proof (fun frame =>
    loading_from_frames (replicate k ∅ ++ replicate m pool) 0 i (i mod 4) frame
      ltac:(lia) eq_refl) as Hframe.
  pose proof (loading_from_length (replicate k ∅ ++ replicate m pool)
                (0, "loading"%string) i) as Hsome.
  fold (loading (replicate k ∅ ++ replicate m pool)) in Hframe, Hsome.
  rewrite list_lookup_fmap.
  destruct (loading (replicate k ∅ ++ replicate m pool) !! i) as [frame|] eqn:Hi.
  - rewrite (Hframe frame Hi).
    assert (Hall : ∀ j, (j <= i)%nat → (replicate k ∅ ++ replicate m pool) !! j = Some ∅)
      by (apply Hsome; eauto).
    assert (Hlt : (i < if decide (pool = ∅) then k + m else k)%nat).
    { specialize (Hall i ltac:(lia)). pose proof (lookup_lt_Some _ _ _ Hall) as Hlen.
      rewrite length_app, !length_replicate in Hlen.
      case_decide as Hp; [done|].
      destruct (decide (i < k)%nat); [done|].
      rewrite lookup_app_r in Hall by (rewrite length_replicate; lia).
      apply lookup_replicate in Hall as [? _]. congruence. }
    by rewrite (lookup_seq_lt _ _ _ Hlt).
  - destruct (seq 0 (if decide (pool = ∅) then k + m else k) !! i) as [j|] eqn:Hj; [|done].
    apply lookup_seq in Hj as [-> Hlt]. exfalso.
    destruct (proj2 Hsome) as [? ?]; [|discriminate]. intros j Hj.
    destruct (decide (j < k)%nat).
    + rewrite lookup_app_l by (rewrite length_replicate; lia).
      by apply lookup_replicate_2.
    + case_decide as Hp; [|lia]. subst pool.
      rewrite lookup_app_r by (rewrite length_replicate; lia).
      apply lookup_replicate_2. rewrite length_replicate. lia.
Qed.
